(** * Chain context: template and placeholder resolution

    A shallow embedding of
    [swarmauri/standard/chains/base/ChainContextBase.py]:
    the Context store ([update], [get_value]), the template resolver
    ([_resolve_fstring], built on [re.sub] and [eval]), the placeholder
    walker ([_resolve_placeholders]) and the reference resolver
    ([_resolve_ref]).

    The class relies on two pieces of the Python runtime:

    - [re.compile(r'{([^}]+)}').sub], embedded in full in module [Re];
    - the builtin [eval(expression, {}, self.context)] and [str], embedded
      in module [Py] for a fragment of Python expressions (names, decimal
      integers, unary and binary [+] and [-], parentheses, calls of one
      argument, comments).  On every input outside that fragment the
      embedding answers [None]: it then says nothing about what Python
      does, and neither does any statement below.  Of the exceptions that
      are not instances of [Exception] the fragment has [SystemExit],
      raised by the calls [exit()] and [quit()]; side effects of the
      evaluated expression, other sources of such exceptions and
      divergence are outside the fragment.

    The fragment follows CPython 3 (3.8 to 3.13) in its default
    configuration.  A string is a sequence of code points below 256; a
    dict is the list of its items in insertion order. *)

From Stdlib Require Import Ascii.
From stdpp Require Import base strings gmap list pretty.

Local Set Warnings "-register-all".

(** ** Characters that cannot be written inside a string literal here *)

Definition TAB : ascii := "009"%char.
Definition LF : ascii := "010"%char.
Definition CR : ascii := "013"%char.
Definition DQUOTE : ascii := "034"%char.
Definition SQUOTE : ascii := "039"%char.
Definition BACKSLASH : ascii := "092"%char.

Definition code (c : ascii) : N := Ascii.N_of_ascii c.

Fixpoint chars (s : string) : list ascii :=
  match s with
  | EmptyString => []
  | String c rest => c :: chars rest
  end.

Fixpoint join (sep : string) (parts : list string) : string :=
  match parts with
  | [] => ""
  | [p] => p
  | p :: rest => p +:+ sep +:+ join sep rest
  end.

(** ** The Python runtime fragment *)

Module Py.

(** Python objects.  [VBuiltin name] is the object bound to [name] in the
    [builtins] module. *)
Inductive Value : Type :=
  | VNone
  | VBool (b : bool)
  | VInt (z : Z)
  | VStr (s : string)
  | VList (l : list Value)
  | VTuple (l : list Value)
  | VDict (items : list (Value * Value))
  | VBuiltin (name : string).

Inductive PyExn : Type :=
  | NameError (name : string)
  | SyntaxError
  | TypeError (message : string).

(** Exceptions that derive from [BaseException] and not from [Exception]:
    a handler [except Exception] lets them through. *)
Inductive BaseExn : Type :=
  | SystemExit (code : option Value).

(** What evaluating an expression does: it returns an object, raises an
    instance of [Exception], or raises an exception that is none. *)
Inductive outcome : Type :=
  | Returns (v : Value)
  | Raises (e : PyExn)
  | Exits (b : BaseExn).


(** *** [repr] and [str] *)

Definition hex_digit (n : N) : ascii :=
  match n with
  | 0 => "0" | 1 => "1" | 2 => "2" | 3 => "3" | 4 => "4" | 5 => "5"
  | 6 => "6" | 7 => "7" | 8 => "8" | 9 => "9" | 10 => "a" | 11 => "b"
  | 12 => "c" | 13 => "d" | 14 => "e" | _ => "f"
  end%N%char.

Definition has_char (c : ascii) (s : string) : bool :=
  existsb (Ascii.eqb c) (chars s).

(** The quote [repr] puts around a string: a double quote when the string
    holds a single quote and no double quote, a single quote otherwise. *)
Definition repr_quote (s : string) : ascii :=
  if has_char SQUOTE s && negb (has_char DQUOTE s) then DQUOTE else SQUOTE.

(** One character of a string under [repr]; code points from 128 on are
    outside the fragment. *)
Definition repr_char (quote c : ascii) : option string :=
  if Ascii.eqb c quote || Ascii.eqb c BACKSLASH then Some (String BACKSLASH (String c ""))
  else if Ascii.eqb c TAB then Some (String BACKSLASH "t")
  else if Ascii.eqb c LF then Some (String BACKSLASH "n")
  else if Ascii.eqb c CR then Some (String BACKSLASH "r")
  else if (code c <? 32)%N || (code c =? 127)%N then
    Some (String BACKSLASH (String "x" (String (hex_digit (code c / 16)) (String (hex_digit (code c mod 16)) ""))))
  else if (code c <? 127)%N then Some (String c "")
  else None.

Fixpoint repr_chars (quote : ascii) (s : string) : option string :=
  match s with
  | EmptyString => Some (String quote "")
  | String c rest =>
      match repr_char quote c, repr_chars quote rest with
      | Some x, Some y => Some (x +:+ y)
      | _, _ => None
      end
  end.

Definition repr_str (s : string) : option string :=
  String (repr_quote s) <$> repr_chars (repr_quote s) s.

(** The default limit of CPython 3.11 and later on the number of digits of
    an integer converted to or from text; beyond it the fragment ends. *)
Definition int_max_str_digits : nat := 4300.

Definition repr_int (z : Z) : option string :=
  if bool_decide (String.length (pretty (Z.abs z)) ≤ int_max_str_digits)
  then Some (pretty z) else None.

(** The builtins whose call is modelled. *)
Definition builtin_functions : list string := ["abs"; "len"].

Definition repr_tuple (parts : list string) : string :=
  match parts with
  | [] => "()"
  | [p] => "(" +:+ p +:+ ",)"
  | _ => "(" +:+ join ", " parts +:+ ")"
  end.

Fixpoint repr (v : Value) : option string :=
  match v with
  | VNone => Some "None"
  | VBool b => Some (if b then "True" else "False")
  | VInt z => repr_int z
  | VStr s => repr_str s
  | VList l => (λ parts, "[" +:+ join ", " parts +:+ "]") <$> mapM repr l
  | VTuple l => repr_tuple <$> mapM repr l
  | VDict items =>
      (λ parts, "{" +:+ join ", " parts +:+ "}") <$>
      mapM (λ kv, match repr kv.1, repr kv.2 with
                  | Some k, Some x => Some (k +:+ ": " +:+ x)
                  | _, _ => None
                  end) items
  | VBuiltin name =>
      if bool_decide (name ∈ builtin_functions)
      then Some ("<built-in function " +:+ name +:+ ">") else None
  end.

Definition str (v : Value) : option string :=
  match v with
  | VStr s => Some s
  | _ => repr v
  end.

(** *** Tokens *)

Inductive token : Type :=
  | TName (name : string)
  | TInt (z : Z)
  | TPlus
  | TMinus
  | TLParen
  | TRParen.

Definition is_digit (c : ascii) : bool :=
  (48 <=? code c)%N && (code c <=? 57)%N.

Definition is_name_start (c : ascii) : bool :=
  (65 <=? code c)%N && (code c <=? 90)%N
  || (97 <=? code c)%N && (code c <=? 122)%N
  || Ascii.eqb c "_".

Definition is_name_char (c : ascii) : bool :=
  is_name_start c || is_digit c.

(** Inside a comment every printable ASCII character and the tab is
    accepted; a line break or any other character ends the fragment. *)
Definition is_comment_char (c : ascii) : bool :=
  (32 <=? code c)%N && (code c <? 127)%N || Ascii.eqb c TAB.

(** Keywords cannot be names; [__debug__] is compiled to a constant. *)
Definition reserved_words : list string :=
  ["False"; "None"; "True"; "and"; "as"; "assert"; "async"; "await";
   "break"; "class"; "continue"; "def"; "del"; "elif"; "else"; "except";
   "finally"; "for"; "from"; "global"; "if"; "import"; "in"; "is";
   "lambda"; "nonlocal"; "not"; "or"; "pass"; "raise"; "return"; "try";
   "while"; "with"; "yield"; "__debug__"].

Definition is_reserved (w : string) : bool :=
  bool_decide (w ∈ reserved_words).

Definition digit_value (c : ascii) : Z := Z.of_N (code c) - 48.

Definition decimal_value (digits : string) : Z :=
  foldl (λ acc c, 10 * acc + digit_value c)%Z 0%Z (chars digits).

(** A run of digits as an integer literal: ["0"], or digits without a
    leading zero, within the digit limit. *)
Definition int_token (digits : string) : option token :=
  match digits with
  | String "0" EmptyString => Some (TInt 0)
  | String "0" _ => None
  | _ =>
      if bool_decide (String.length digits ≤ int_max_str_digits)
      then Some (TInt (decimal_value digits)) else None
  end.

Inductive lex_state : Type :=
  | LIdle
  | LName (word : string)
  | LInt (digits : string)
  | LComment.

(** The token closed by the end of the input or by the next character. *)
Definition flush (st : lex_state) : option (list token) :=
  match st with
  | LIdle | LComment => Some []
  | LName word => if is_reserved word then None else Some [TName word]
  | LInt digits => (λ t, [t]) <$> int_token digits
  end.

(** A character met between tokens. *)
Definition start (c : ascii) : option (lex_state * list token) :=
  if Ascii.eqb c " " || Ascii.eqb c TAB then Some (LIdle, [])
  else if Ascii.eqb c "#" then Some (LComment, [])
  else if Ascii.eqb c "+" then Some (LIdle, [TPlus])
  else if Ascii.eqb c "-" then Some (LIdle, [TMinus])
  else if Ascii.eqb c "(" then Some (LIdle, [TLParen])
  else if Ascii.eqb c ")" then Some (LIdle, [TRParen])
  else if is_name_start c then Some (LName (String c ""), [])
  else if is_digit c then Some (LInt (String c ""), [])
  else None.

Fixpoint lex (st : lex_state) (source : string) : option (list token) :=
  match source with
  | EmptyString => flush st
  | String c rest =>
      let restart :=
        match flush st, start c with
        | Some done, Some (st', emitted) =>
            (λ later, done ++ emitted ++ later) <$> lex st' rest
        | _, _ => None
        end in
      match st with
      | LIdle => restart
      | LComment => if is_comment_char c then lex LComment rest else None
      | LName word =>
          if is_name_char c then lex (LName (word +:+ String c "")) rest
          else restart
      | LInt digits =>
          if is_digit c then lex (LInt (digits +:+ String c "")) rest
          else if is_name_char c then None
          else restart
      end
  end.

Definition tokenize (source : string) : option (list token) := lex LIdle source.

(** *** Expressions *)

Inductive unary_op : Type := UAdd | USub.
Inductive binary_op : Type := Add | Sub.

Inductive expr : Type :=
  | EName (name : string)
  | EInt (z : Z)
  | EEmptyTuple
  | EUnary (op : unary_op) (operand : expr)
  | EBin (op : binary_op) (lhs rhs : expr)
  | ECall (func : expr) (arg : option expr).

Inductive parse_result (A : Type) : Type :=
  | Parsed (a : A) (rest : list token)
  | NoParse
  | Exhausted.
Arguments Parsed {A} a rest.
Arguments NoParse {A}.
Arguments Exhausted {A}.

(** Recursive descent over the grammar of Python restricted to the tokens
    above:
      sum      ::= factor (('+' | '-') factor)*
      factor   ::= ('+' | '-') factor | primary
      primary  ::= atom ('(' [sum] ')')*
      atom     ::= NAME | NUMBER | '(' ')' | '(' sum ')'          *)
Fixpoint parse_sum (fuel : nat) (ts : list token) : parse_result expr :=
  match fuel with
  | 0 => Exhausted
  | S n =>
      match parse_factor n ts with
      | Parsed e rest => parse_sum_rest n e rest
      | r => r
      end
  end
with parse_sum_rest (fuel : nat) (acc : expr) (ts : list token) : parse_result expr :=
  match fuel with
  | 0 => Exhausted
  | S n =>
      match ts with
      | TPlus :: ts' =>
          match parse_factor n ts' with
          | Parsed e rest => parse_sum_rest n (EBin Add acc e) rest
          | r => r
          end
      | TMinus :: ts' =>
          match parse_factor n ts' with
          | Parsed e rest => parse_sum_rest n (EBin Sub acc e) rest
          | r => r
          end
      | _ => Parsed acc ts
      end
  end
with parse_factor (fuel : nat) (ts : list token) : parse_result expr :=
  match fuel with
  | 0 => Exhausted
  | S n =>
      match ts with
      | TPlus :: ts' =>
          match parse_factor n ts' with
          | Parsed e rest => Parsed (EUnary UAdd e) rest
          | r => r
          end
      | TMinus :: ts' =>
          match parse_factor n ts' with
          | Parsed e rest => Parsed (EUnary USub e) rest
          | r => r
          end
      | _ =>
          match parse_atom n ts with
          | Parsed e rest => parse_trailers n e rest
          | r => r
          end
      end
  end
with parse_atom (fuel : nat) (ts : list token) : parse_result expr :=
  match fuel with
  | 0 => Exhausted
  | S n =>
      match ts with
      | TName name :: ts' => Parsed (EName name) ts'
      | TInt z :: ts' => Parsed (EInt z) ts'
      | TLParen :: TRParen :: ts' => Parsed EEmptyTuple ts'
      | TLParen :: ts' =>
          match parse_sum n ts' with
          | Parsed e (TRParen :: rest) => Parsed e rest
          | Parsed _ _ => NoParse
          | r => r
          end
      | _ => NoParse
      end
  end
with parse_trailers (fuel : nat) (func : expr) (ts : list token) : parse_result expr :=
  match fuel with
  | 0 => Exhausted
  | S n =>
      match ts with
      | TLParen :: TRParen :: ts' => parse_trailers n (ECall func None) ts'
      | TLParen :: ts' =>
          match parse_sum n ts' with
          | Parsed a (TRParen :: rest) => parse_trailers n (ECall func (Some a)) rest
          | Parsed _ _ => NoParse
          | r => r
          end
      | _ => Parsed func ts
      end
  end.

(** The fragment holds expressions of at most this many tokens, far below
    the nesting and recursion limits of the interpreter. *)
Definition max_tokens : nat := 64.

(** [compile(source, '<string>', 'eval')]: [None] outside the fragment,
    [inl SyntaxError] for a token sequence no Python expression has. *)
Definition compile (source : string) : option (PyExn + expr) :=
  match tokenize source with
  | None => None
  | Some ts =>
      if bool_decide (length ts ≤ max_tokens) then
        match parse_sum (4 * length ts + 4) ts with
        | Parsed e [] => Some (inr e)
        | Parsed _ (_ :: _) | NoParse => Some (inl SyntaxError)
        | Exhausted => None
        end
      else None
  end.

(** *** Name lookup

    [eval(expression, {}, locals)] looks a name up in [locals], then in
    the globals, then in the [builtins] module.  The globals passed are an
    empty dict, into which [eval] inserts the key [__builtins__]. *)

(** Every other name bound in the [builtins] module (CPython 3.8 to 3.13);
    the objects they denote are outside the fragment. *)
Definition other_builtin_names : list string :=
  ["ArithmeticError"; "AssertionError"; "AttributeError"; "BaseException";
   "BaseExceptionGroup"; "BlockingIOError"; "BrokenPipeError"; "BufferError";
   "BytesWarning"; "ChildProcessError"; "ConnectionAbortedError";
   "ConnectionError"; "ConnectionRefusedError"; "ConnectionResetError";
   "DeprecationWarning"; "EOFError"; "Ellipsis"; "EncodingWarning";
   "EnvironmentError"; "Exception"; "ExceptionGroup"; "False";
   "FileExistsError"; "FileNotFoundError"; "FloatingPointError";
   "FutureWarning"; "GeneratorExit"; "IOError"; "ImportError";
   "ImportWarning"; "IndentationError"; "IndexError"; "InterruptedError";
   "IsADirectoryError"; "KeyError"; "KeyboardInterrupt"; "LookupError";
   "MemoryError"; "ModuleNotFoundError"; "NameError"; "None";
   "NotADirectoryError"; "NotImplemented"; "NotImplementedError"; "OSError";
   "OverflowError"; "PendingDeprecationWarning"; "PermissionError";
   "ProcessLookupError"; "PythonFinalizationError"; "RecursionError";
   "ReferenceError"; "ResourceWarning"; "RuntimeError"; "RuntimeWarning";
   "StopAsyncIteration"; "StopIteration"; "SyntaxError"; "SyntaxWarning";
   "SystemError"; "SystemExit"; "TabError"; "TimeoutError"; "True";
   "TypeError"; "UnboundLocalError"; "UnicodeDecodeError";
   "UnicodeEncodeError"; "UnicodeError"; "UnicodeTranslateError";
   "UnicodeWarning"; "UserWarning"; "ValueError"; "Warning"; "WindowsError";
   "ZeroDivisionError"; "_"; "_IncompleteInputError"; "__build_class__";
   "__debug__"; "__doc__"; "__import__"; "__loader__"; "__name__";
   "__package__"; "__spec__"; "aiter"; "all"; "anext"; "any"; "ascii";
   "bin"; "bool"; "breakpoint"; "bytearray"; "bytes"; "callable"; "chr";
   "classmethod"; "compile"; "complex"; "copyright"; "credits"; "delattr";
   "dict"; "dir"; "divmod"; "enumerate"; "eval"; "exec"; "exit"; "filter";
   "float"; "format"; "frozenset"; "getattr"; "globals"; "hasattr"; "hash";
   "help"; "hex"; "id"; "input"; "int"; "isinstance"; "issubclass"; "iter";
   "license"; "list"; "locals"; "map"; "max"; "memoryview"; "min"; "next";
   "object"; "oct"; "open"; "ord"; "pow"; "print"; "property"; "quit";
   "range"; "repr"; "reversed"; "round"; "set"; "setattr"; "slice";
   "sorted"; "staticmethod"; "str"; "sum"; "super"; "tuple"; "type"; "vars";
   "zip"].

(** The two objects the [site] module adds to the builtins to leave the
    interpreter: calling one raises [SystemExit] with the argument given. *)
Definition quitters : list string := ["exit"; "quit"].

(** The names a placeholder can resolve without the Context. *)
Definition is_builtin_name (name : string) : bool :=
  bool_decide (name ∈ builtin_functions)
  || bool_decide (name = "__builtins__")
  || bool_decide (name ∈ other_builtin_names).

Definition load_name (locals : gmap string Value) (name : string) : option outcome :=
  match locals !! name with
  | Some v => Some (Returns v)
  | None =>
      if bool_decide (name ∈ builtin_functions ++ quitters)
      then Some (Returns (VBuiltin name))
      else if is_builtin_name name then None
      else Some (Raises (NameError name))
  end.

(** *** Operators and calls *)

Definition unary (op : unary_op) (v : Value) : option outcome :=
  match op, v with
  | UAdd, VInt z => Some (Returns (VInt z))
  | USub, VInt z => Some (Returns (VInt (- z)))
  | _, _ => None
  end.

Definition binary (op : binary_op) (a b : Value) : option outcome :=
  match op, a, b with
  | Add, VInt x, VInt y => Some (Returns (VInt (x + y)))
  | Sub, VInt x, VInt y => Some (Returns (VInt (x - y)))
  | Add, VStr x, VStr y => Some (Returns (VStr (x +:+ y)))
  | Add, VInt _, VStr _ =>
      Some (Raises (TypeError "unsupported operand type(s) for +: 'int' and 'str'"))
  | Add, VStr _, VInt _ =>
      Some (Raises (TypeError
        ("can only concatenate str (not " +:+ String DQUOTE "int" +:+ String DQUOTE ") to str")))
  | Sub, VStr _, VStr _ =>
      Some (Raises (TypeError "unsupported operand type(s) for -: 'str' and 'str'"))
  | _, _, _ => None
  end.

Definition call (func : Value) (arg : option Value) : option outcome :=
  match func, arg with
  | VInt _, _ => Some (Raises (TypeError "'int' object is not callable"))
  | VStr _, _ => Some (Raises (TypeError "'str' object is not callable"))
  | VBuiltin "abs", Some (VInt z) => Some (Returns (VInt (Z.abs z)))
  | VBuiltin "abs", Some (VStr _) =>
      Some (Raises (TypeError "bad operand type for abs(): 'str'"))
  | VBuiltin "len", Some (VStr s) => Some (Returns (VInt (Z.of_nat (String.length s))))
  | VBuiltin "len", Some (VList l) => Some (Returns (VInt (Z.of_nat (length l))))
  | VBuiltin "len", Some (VTuple l) => Some (Returns (VInt (Z.of_nat (length l))))
  | VBuiltin "len", Some (VDict items) => Some (Returns (VInt (Z.of_nat (length items))))
  | VBuiltin "len", Some (VInt _) =>
      Some (Raises (TypeError "object of type 'int' has no len()"))
  | VBuiltin "exit", code | VBuiltin "quit", code => Some (Exits (SystemExit code))
  | _, _ => None
  end.

(** The names an expression refers to. *)
Fixpoint names (e : expr) : list string :=
  match e with
  | EName name => [name]
  | EInt _ | EEmptyTuple => []
  | EUnary _ operand => names operand
  | EBin _ lhs rhs => names lhs ++ names rhs
  | ECall func arg => names func ++ from_option names [] arg
  end.

(** *** Evaluation, operands left to right

    The compiler warns about a call whose callee is a constant, and the
    warning filters decide whether that is an error: such calls are left
    out of the fragment. *)

Fixpoint eval_expr (locals : gmap string Value) (e : expr) : option outcome :=
  match e with
  | EName name => load_name locals name
  | EInt z => Some (Returns (VInt z))
  | EEmptyTuple => Some (Returns (VTuple []))
  | EUnary op operand =>
      match eval_expr locals operand with
      | Some (Returns v) => unary op v
      | r => r
      end
  | EBin op lhs rhs =>
      match eval_expr locals lhs with
      | Some (Returns a) =>
          match eval_expr locals rhs with
          | Some (Returns b) => binary op a b
          | r => r
          end
      | r => r
      end
  | ECall func arg =>
      match names func with
      | [] => None
      | _ =>
          match eval_expr locals func with
          | Some (Returns f) =>
              match arg with
              | None => call f None
              | Some a =>
                  match eval_expr locals a with
                  | Some (Returns v) => call f (Some v)
                  | r => r
                  end
              end
          | r => r
          end
      end
  end.

(** [eval(source, {}, locals)]. *)
Definition eval (source : string) (locals : gmap string Value) : option outcome :=
  match compile source with
  | None => None
  | Some (inl e) => Some (Raises e)
  | Some (inr e) => eval_expr locals e
  end.

Definition referenced_names (source : string) : list string :=
  match compile source with
  | Some (inr e) => names e
  | _ => []
  end.

(** An ASCII identifier that can stand as an expression of its own. *)
Definition is_identifier (name : string) : bool :=
  match name with
  | EmptyString => false
  | String c rest => is_name_start c && forallb is_name_char (chars rest)
  end && negb (is_reserved name).

End Py.

(** ** Standard output and the effect of a call *)

(** A line written by [print] in [replacer]:
    [Failed to resolve expression: <expression>. Error: <error>]. *)
Record Diagnostic : Type := {
  diag_expression : string;
  diag_error : Py.PyExn;
}.


(** A call that returns: its result together with the lines it printed,
    in order; [None] when the call does not return inside the fragment,
    because it left the modelled part of Python or because it ended by an
    exception.  [Call] below tells these apart. *)
Definition Run (A : Type) : Type := option (A * list Diagnostic).

Definition ret {A} (a : A) : Run A := Some (a, []).

Definition bind {A B} (m : Run A) (k : A → Run B) : Run B :=
  match m with
  | None => None
  | Some (a, out) =>
      match k a with
      | None => None
      | Some (b, out') => Some (b, out ++ out')
      end
  end.

Definition print (d : Diagnostic) : Run unit := Some (tt, [d]).

Global Arguments ret : simpl never.
Global Arguments bind : simpl never.
Global Arguments print : simpl never.

Notation "'let*' x ':=' m 'in' k" := (bind m (λ x, k))
  (at level 10, x name, m at level 100, k at level 200, only parsing).

(** The ways a call can end: it returns, an exception that no handler
    caught reaches the caller, or it left the fragment.  The lines printed
    until then come with the first two. *)
Inductive Call (A : Type) : Type :=
  | Returned (a : A) (out : list Diagnostic)
  | Propagated (b : Py.BaseExn) (out : list Diagnostic)
  | Outside.
Arguments Returned {A} a out.
Arguments Propagated {A} b out.
Arguments Outside {A}.

Definition call_ret {A} (a : A) : Call A := Returned a [].

Definition call_bind {A B} (m : Call A) (k : A → Call B) : Call B :=
  match m with
  | Returned a out =>
      match k a with
      | Returned b out' => Returned b (out ++ out')
      | Propagated e out' => Propagated e (out ++ out')
      | Outside => Outside
      end
  | Propagated e out => Propagated e out
  | Outside => Outside
  end.

Global Arguments call_ret : simpl never.
Global Arguments call_bind : simpl never.


Fixpoint run_list {A B} (f : A → Run B) (l : list A) : Run (list B) :=
  match l with
  | [] => ret []
  | x :: rest =>
      let* y := f x in
      let* ys := run_list f rest in
      ret (y :: ys)
  end.

(** ** The regular expression [{([^}]+)}] *)

Module Re.

(** [[^}]+] is greedy and cannot cross a closing brace: it takes the text
    up to the first one.  [until_close s] splits [s] there. *)
Fixpoint until_close (s : string) : option (string * string) :=
  match s with
  | EmptyString => None
  | String c rest =>
      if Ascii.eqb c "}" then Some ("", rest)
      else match until_close rest with
           | Some (body, after) => Some (String c body, after)
           | None => None
           end
  end.

(** A match of the pattern anchored at the start of [s]: group 1 and the
    text after the match. *)
Definition match_here (s : string) : option (string * string) :=
  match s with
  | String c rest =>
      if Ascii.eqb c "{" then
        match until_close rest with
        | Some (String e0 e, after) => Some (String e0 e, after)
        | _ => None
        end
      else None
  | EmptyString => None
  end.

(** The template cut at the leftmost non-overlapping matches. *)
Inductive piece : Type :=
  | Literal (c : ascii)
  | Group (expression : string).

Fixpoint scan (fuel : nat) (s : string) : list piece :=
  match fuel with
  | 0 => []
  | S n =>
      match s with
      | EmptyString => []
      | String c rest =>
          match match_here s with
          | Some (expression, after) => Group expression :: scan n after
          | None => Literal c :: scan n rest
          end
      end
  end.

Definition finditer (s : string) : list piece := scan (String.length s) s.

(** [pattern.sub(repl, template)]: the pieces left to right, [repl] called
    on each match, the results joined. *)
Fixpoint sub_pieces (repl : string → Run string) (ps : list piece) : Run string :=
  match ps with
  | [] => ret ""
  | Literal c :: rest =>
      let* tail := sub_pieces repl rest in ret (String c tail)
  | Group expression :: rest =>
      let* text := repl expression in
      let* tail := sub_pieces repl rest in
      ret (text +:+ tail)
  end.

Definition sub (repl : string → Run string) (template : string) : Run string :=
  sub_pieces repl (finditer template).

(** The same substitution with every way [repl] can end: an exception it
    lets through ends the substitution at that match. *)
Fixpoint sub_pieces_call (repl : string → Call string) (ps : list piece) : Call string :=
  match ps with
  | [] => call_ret ""
  | Literal c :: rest =>
      call_bind (sub_pieces_call repl rest) (λ tail, call_ret (String c tail))
  | Group expression :: rest =>
      call_bind (repl expression) (λ text,
      call_bind (sub_pieces_call repl rest) (λ tail,
      call_ret (text +:+ tail)))
  end.

Definition sub_call (repl : string → Call string) (template : string) : Call string :=
  sub_pieces_call repl (finditer template).

End Re.

(** ** The class *)

Module ChainContextBase.
Import Py.

(** Steps are opaque to this class. *)
Inductive ChainStep : Type := Step (id : nat).

Record t : Type := {
  steps : list ChainStep;
  context : gmap string Value;
  resource : option string;
}.

(** A call of [update] with keyword arguments.  The first parameter of the
    method is named [self] and is bound to the object, so keyword
    arguments with the key [self] are refused with a [TypeError] before
    the body runs. *)
Inductive update_result : Type :=
  | Updated (self' : t)
  | UpdateTypeError.

(** [self.context.update(kwargs)] *)
Definition update (self : t) (kwargs : gmap string Value) : update_result :=
  match kwargs !! "self" with
  | Some _ => UpdateTypeError
  | None =>
      Updated {| steps := steps self;
                 context := kwargs ∪ context self;
                 resource := resource self |}
  end.

(** The object after a call of [update], whether it returned or raised. *)
Definition after_update (self : t) (kwargs : gmap string Value) : t :=
  match update self kwargs with
  | Updated self' => self'
  | UpdateTypeError => self
  end.

(** [self.context.get(key)] *)
Definition get_value (self : t) (key : string) : Value :=
  default VNone (context self !! key).

(** The closure [replacer] of [_resolve_fstring], applied to group 1 of a
    match. *)
Definition replacer (self : t) (expression : string) : Run string :=
  match eval expression (context self) with
  | None => None
  | Some (Returns v) =>
      match str v with
      | Some text => ret text
      | None => None
      end
  | Some (Raises e) =>
      let* _ := print {| diag_expression := expression; diag_error := e |} in
      ret ("{" +:+ expression +:+ "}")
  | Some (Exits _) => None
  end.

Definition _resolve_fstring (self : t) (template : string) : Run string :=
  Re.sub (replacer self) template.

(** [replacer] with every way it can end: [except Exception] does not
    catch what [Exits] stands for, and nothing is printed for it. *)
Definition replacer_call (self : t) (expression : string) : Call string :=
  match eval expression (context self) with
  | None => Outside
  | Some (Returns v) =>
      match str v with
      | Some text => call_ret text
      | None => Outside
      end
  | Some (Raises e) =>
      Returned ("{" +:+ expression +:+ "}")
               [{| diag_expression := expression; diag_error := e |}]
  | Some (Exits b) => Propagated b []
  end.

(** [_resolve_fstring] with every way it can end. *)
Definition _resolve_fstring_call (self : t) (template : string) : Call string :=
  Re.sub_call (replacer_call self) template.

Fixpoint _resolve_placeholders (self : t) (value : Value) : Run Value :=
  match value with
  | VStr s => let* r := _resolve_fstring self s in ret (VStr r)
  | VDict items =>
      let* items' :=
        run_list (λ kv, let* v := _resolve_placeholders self kv.2 in ret (kv.1, v)) items in
      ret (VDict items')
  | VList l =>
      let* l' := run_list (_resolve_placeholders self) l in
      ret (VList l')
  | _ => ret value
  end.

Definition _resolve_ref (self : t) (value : Value) : Value :=
  match value with
  | VStr (String "$" placeholder) => VStr placeholder
  | _ => value
  end.

End ChainContextBase.

(** ** Vocabulary of the statements *)

Import Py ChainContextBase.

(** A template holds a placeholder: an opening brace, at least one
    character other than a closing brace, a closing brace. *)
Definition has_placeholder (template : string) : Prop :=
  ∃ pre expression post,
    template = pre +:+ "{" +:+ expression +:+ "}" +:+ post
    ∧ expression ≠ "" ∧ "}"%char ∉ chars expression.

(** [pending false s]: the last brace of [s] is an opening one, so that
    text appended to [s] starts inside a brace span. *)
Fixpoint pending (opened : bool) (s : string) : bool :=
  match s with
  | EmptyString => opened
  | String c rest =>
      pending (if Ascii.eqb c "{" then true
               else if Ascii.eqb c "}" then false else opened) rest
  end.

Definition unclosed (s : string) : bool := pending false s.

(** The values [_resolve_placeholders] walks into. *)
Definition is_walked (v : Value) : bool :=
  match v with
  | VStr _ | VDict _ | VList _ => true
  | _ => false
  end.

Definition new_context (c : gmap string Value) : ChainContextBase.t :=
  {| steps := []; context := c; resource := None |}.

(** The text a piece of the scan stands for in the template. *)
Definition piece_text (p : Re.piece) : string :=
  match p with
  | Re.Literal c => String c ""
  | Re.Group expression => "{" +:+ expression +:+ "}"
  end.

Definition unscan (ps : list Re.piece) : string :=
  foldr (λ p rest, piece_text p +:+ rest) "" ps.

(** The expressions of the placeholders of a template, left to right. *)
Definition groups (ps : list Re.piece) : list string :=
  omap (λ p, match p with Re.Group e => Some e | Re.Literal _ => None end) ps.

Definition placeholders (template : string) : list string :=
  groups (Re.finditer template).

(** The line [replacer] prints for an expression, if it prints one. *)
Definition diagnostic_of (self : ChainContextBase.t) (expression : string)
    : option Diagnostic :=
  match eval expression (context self) with
  | Some (Raises x) => Some {| diag_expression := expression; diag_error := x |}
  | _ => None
  end.

(** The object after a sequence of calls of [update]. *)
Definition updates (self : ChainContextBase.t)
    (calls : list (gmap string Value)) : ChainContextBase.t :=
  foldl after_update self calls.

(** [a == b] between objects that are not containers. *)
Definition py_eq (a b : Value) : option bool :=
  match a, b with
  | VNone, VNone => Some true
  | VBool x, VBool y => Some (bool_decide (x = y))
  | VInt x, VInt y => Some (bool_decide (x = y))
  | VBool x, VInt y | VInt y, VBool x =>
      Some (bool_decide ((if x then 1 else 0)%Z = y))
  | VStr x, VStr y => Some (bool_decide (x = y))
  | VNone, (VBool _ | VInt _ | VStr _) | (VBool _ | VInt _ | VStr _), VNone
  | VStr _, (VBool _ | VInt _) | (VBool _ | VInt _), VStr _ => Some false
  | _, _ => None
  end.

(** [c1 == c2] between two Contexts: the same keys, bound to objects that
    compare equal. *)
Definition dict_eq (c1 c2 : gmap string Value) : Prop :=
  dom c1 = dom c2
  ∧ ∀ key a b, c1 !! key = Some a → c2 !! key = Some b → py_eq a b = Some true.

(** A value in which no string that [_resolve_placeholders] reaches holds a
    placeholder. *)
Inductive resolved : Value → Prop :=
  | resolved_str s : ¬ has_placeholder s → resolved (VStr s)
  | resolved_list l : Forall resolved l → resolved (VList l)
  | resolved_dict items :
      Forall (λ kv, resolved kv.2) items → resolved (VDict items)
  | resolved_other v : is_walked v = false → resolved v.

(** Two values with the same structure: strings stand at the same places,
    dicts have the same keys in the same order, lists the same length,
    and everything else is the same object. *)
Inductive same_shape : Value → Value → Prop :=
  | shape_str s s' : same_shape (VStr s) (VStr s')
  | shape_list l l' : Forall2 same_shape l l' → same_shape (VList l) (VList l')
  | shape_dict items items' :
      Forall2 (λ kv kv', kv.1 = kv'.1 ∧ same_shape kv.2 kv'.2) items items' →
      same_shape (VDict items) (VDict items')
  | shape_other v : is_walked v = false → same_shape v v.

(** One digit more at the right of a number, as [decimal_value] reads it. *)
Definition decimal_step (acc : Z) (c : ascii) : Z := (10 * acc + digit_value c)%Z.

(** An expression made of spaces and tabs only. *)
Definition is_blank (e : string) : bool :=
  forallb (λ c, Ascii.eqb c " " || Ascii.eqb c TAB) (chars e).

(** A decimal integer literal of the fragment: ["0"], or digits that do not
    start with a zero, within the digit limit. *)
Definition is_decimal_literal (d : string) : bool :=
  match d with
  | EmptyString => false
  | String "0" EmptyString => true
  | String c _ =>
      negb (Ascii.eqb c "0") && forallb is_digit (chars d)
      && bool_decide (String.length d ≤ int_max_str_digits)
  end.

(** ** Strings *)

Lemma app_String c s t : String c s +:+ t = String c (s +:+ t).
Proof. reflexivity. Qed.

Lemma app_empty_l t : "" +:+ t = t.
Proof. reflexivity. Qed.

Lemma app_empty_r s : s +:+ "" = s.
Proof. induction s as [|c s IH]; [done|]. by rewrite app_String, IH. Qed.

Lemma app_assoc_str s t u : (s +:+ t) +:+ u = s +:+ t +:+ u.
Proof. induction s as [|c s IH]; [done|]. by rewrite !app_String, IH. Qed.

Lemma chars_app s t : chars (s +:+ t) = chars s ++ chars t.
Proof. induction s as [|c s IH]; [done|]. rewrite app_String. simpl. by rewrite IH. Qed.

Lemma length_app_str s t :
  String.length (s +:+ t) = String.length s + String.length t.
Proof. induction s as [|c s IH]; [done|]. rewrite app_String. simpl. by rewrite IH. Qed.

(** ** The effect monad *)

Lemma bind_ret_l {A B} (a : A) (k : A → Run B) : bind (ret a) k = k a.
Proof. unfold bind, ret. by destruct (k a) as [[b out]|]. Qed.

Lemma bind_ret_r {A} (m : Run A) : bind m ret = m.
Proof. destruct m as [[a out]|]; [|done]. unfold bind, ret. by rewrite app_nil_r. Qed.

Lemma bind_assoc {A B C} (m : Run A) (k : A → Run B) (h : B → Run C) :
  bind (bind m k) h = bind m (λ a, bind (k a) h).
Proof.
  destruct m as [[a out]|]; [|done]. unfold bind.
  destruct (k a) as [[b out']|]; [|done].
  destruct (h b) as [[c out'']|]; [|done]. by rewrite app_assoc.
Qed.

Lemma bind_ext {A B} (m : Run A) (k k' : A → Run B) :
  (∀ a, k a = k' a) → bind m k = bind m k'.
Proof. intros H. destruct m as [[a out]|]; [|done]. unfold bind. by rewrite H. Qed.

Lemma sub_pieces_app repl ps qs :
  Re.sub_pieces repl (ps ++ qs) =
  let* a := Re.sub_pieces repl ps in
  let* b := Re.sub_pieces repl qs in
  ret (a +:+ b).
Proof.
  induction ps as [|[c|e] ps IH]; simpl.
  - rewrite bind_ret_l. symmetry. apply bind_ret_r.
  - rewrite IH, !bind_assoc. apply bind_ext; intros a.
    rewrite bind_assoc, bind_ret_l. apply bind_ext; intros b.
    by rewrite bind_ret_l.
  - rewrite IH, !bind_assoc. apply bind_ext; intros text.
    rewrite !bind_assoc. apply bind_ext; intros a.
    rewrite bind_assoc, !bind_ret_l. apply bind_ext; intros b.
    by rewrite bind_ret_l, app_assoc_str.
Qed.

(** ** The pattern *)

Section Pattern.
Import Re.

Lemma until_close_app e post :
  "}"%char ∉ chars e → until_close (e +:+ String "}" post) = Some (e, post).
Proof.
  induction e as [|c e IH]; intros Hno; [done|].
  rewrite app_String. simpl in *.
  apply not_elem_of_cons in Hno as [Hc He].
  destruct (Ascii.eqb_spec c "}") as [->|_]; [done|].
  by rewrite IH.
Qed.

Lemma until_close_Some s body after :
  until_close s = Some (body, after) →
  s = body +:+ String "}" after ∧ "}"%char ∉ chars body.
Proof.
  revert body. induction s as [|c s IH]; intros body; simpl; [done|].
  destruct (Ascii.eqb_spec c "}") as [->|Hc].
  - intros [= <- <-]. split; [done|]. apply not_elem_of_nil.
  - destruct (until_close s) as [[b a]|] eqn:E; [|done].
    intros [= <- <-]. destruct (IH b eq_refl) as [-> Hb].
    split; [done|]. simpl. apply not_elem_of_cons. split; [congruence|done].
Qed.

Lemma match_here_Some s e after :
  match_here s = Some (e, after) →
  s = "{" +:+ e +:+ "}" +:+ after ∧ e ≠ "" ∧ "}"%char ∉ chars e.
Proof.
  destruct s as [|c s]; simpl; [done|].
  destruct (Ascii.eqb_spec c "{") as [->|_]; [|done].
  destruct (until_close s) as [[[|e0 e1] a]|] eqn:E; [done| |done].
  intros [= <- <-]. apply until_close_Some in E as [-> He]. done.
Qed.

Lemma match_here_placeholder e post :
  e ≠ "" → "}"%char ∉ chars e →
  match_here ("{" +:+ e +:+ "}" +:+ post) = Some (e, post).
Proof.
  intros Hne He. rewrite app_String, app_empty_l. simpl.
  change ("}" +:+ post) with (String "}" post).
  rewrite until_close_app by done. by destruct e.
Qed.

Lemma match_here_shorter s e after :
  match_here s = Some (e, after) → String.length after < String.length s.
Proof.
  intros H. apply match_here_Some in H as (-> & _ & _).
  rewrite !length_app_str. simpl. lia.
Qed.

Lemma scan_fuel n s : String.length s ≤ n → scan n s = finditer s.
Proof.
  unfold finditer. revert s.
  induction n as [n IH] using lt_wf_ind. intros s Hn.
  destruct s as [|c s]; [by destruct n|].
  simpl in Hn. destruct n as [|n]; [lia|].
  cbn [scan String.length].
  destruct (match_here (String c s)) as [[e after]|] eqn:E.
  - pose proof (match_here_shorter _ _ _ E) as Hlt. simpl in Hlt.
    f_equal. rewrite (IH n) by lia.
    symmetry. apply IH; lia.
  - f_equal. apply IH; lia.
Qed.

Lemma finditer_String c s :
  finditer (String c s) =
  match match_here (String c s) with
  | Some (e, after) => Group e :: finditer after
  | None => Literal c :: finditer s
  end.
Proof.
  unfold finditer at 1. cbn [scan String.length].
  destruct (match_here (String c s)) as [[e after]|] eqn:E.
  - f_equal. apply scan_fuel.
    pose proof (match_here_shorter _ _ _ E) as Hlt. simpl in Hlt. lia.
  - f_equal.
Qed.

(** Induction along the scan of a template. *)
Lemma finditer_ind (P : string → list piece → Prop) :
  P "" [] →
  (∀ c s e after, match_here (String c s) = Some (e, after) →
     P after (finditer after) → P (String c s) (Group e :: finditer after)) →
  (∀ c s, match_here (String c s) = None →
     P s (finditer s) → P (String c s) (Literal c :: finditer s)) →
  ∀ s, P s (finditer s).
Proof.
  intros Hnil Hgroup Hlit s.
  remember (String.length s) as n eqn:Hn. revert s Hn.
  induction n as [n IH] using lt_wf_ind. intros s ->.
  destruct s as [|c s]; [done|].
  rewrite finditer_String.
  destruct (match_here (String c s)) as [[e after]|] eqn:E.
  - apply Hgroup; [done|].
    eapply IH; [|done]. by apply match_here_shorter in E.
  - apply Hlit; [done|]. eapply IH; [|done]. simpl. lia.
Qed.

Lemma has_placeholder_String c s : has_placeholder s → has_placeholder (String c s).
Proof.
  intros (pre & e & post & -> & He & Hno).
  exists (String c pre), e, post. by rewrite app_String.
Qed.

Lemma match_here_has_placeholder s e after :
  match_here s = Some (e, after) → has_placeholder s.
Proof.
  intros H. apply match_here_Some in H as (-> & He & Hno).
  by exists "", e, after.
Qed.

Lemma finditer_no_placeholder t :
  ¬ has_placeholder t → finditer t = Literal <$> chars t.
Proof.
  apply (finditer_ind (λ s ps, ¬ has_placeholder s → ps = Literal <$> chars s)).
  - done.
  - intros c s e after E _ Hno. destruct Hno.
    by eapply match_here_has_placeholder.
  - intros c s _ IH Hno. simpl. f_equal. apply IH.
    intros H. by apply Hno, has_placeholder_String.
Qed.

Lemma finditer_has_placeholder t :
  has_placeholder t → ∃ e, Group e ∈ finditer t.
Proof.
  apply (finditer_ind (λ s ps, has_placeholder s → ∃ e, Group e ∈ ps)).
  - intros (pre & e & post & H & _). by destruct pre.
  - intros c s e after _ _ _. exists e. apply list_elem_of_here.
  - intros c s E IH (pre & e & post & H & He & Hno).
    destruct pre as [|c' pre].
    + rewrite app_empty_l in H. rewrite H, match_here_placeholder in E; done.
    + rewrite app_String in H. injection H as -> ->.
      destruct IH as [e' He']; [by exists pre, e, post|].
      exists e'. by apply list_elem_of_further.
Qed.

Lemma pending_body opened e post :
  pending opened (e +:+ String "}" post) = pending false post.
Proof.
  revert opened. induction e as [|c e IH]; intros opened; [done|].
  rewrite app_String. simpl. apply IH.
Qed.

Lemma until_close_None_pending s : until_close s = None → pending true s = true.
Proof.
  induction s as [|c s IH]; simpl; [done|].
  destruct (Ascii.eqb_spec c "}") as [->|_]; [done|].
  destruct (until_close s) as [[b a]|]; [done|]. intros _.
  destruct (Ascii.eqb c "{"); by apply IH.
Qed.

Lemma finditer_app pre s :
  unclosed pre = false → finditer (pre +:+ s) = finditer pre ++ finditer s.
Proof.
  apply (finditer_ind
    (λ p ps, unclosed p = false → finditer (p +:+ s) = ps ++ finditer s)).
  - done.
  - intros c p e after E IH Hp.
    apply match_here_Some in E as (E & He & Hno). rewrite E in Hp |- *.
    rewrite !app_assoc_str. change ("{" +:+ ?x) with (String "{" x).
    rewrite finditer_String.
    change (String "{" ?x) with ("{" +:+ x) at 1.
    rewrite match_here_placeholder by done. simpl. f_equal. apply IH.
    revert Hp. unfold unclosed. rewrite app_String, app_empty_l. simpl.
    change ("}" +:+ after) with (String "}" after). by rewrite pending_body.
  - intros c p E IH Hp. rewrite app_String, finditer_String.
    assert (match_here (String c (p +:+ s)) = None ∧ unclosed p = false)
      as [-> Hp'].
    { revert E Hp. unfold unclosed. simpl.
      destruct (Ascii.eqb_spec c "{") as [->|_].
      - destruct (until_close p) as [[[|e0 e1] a]|] eqn:Ep; [|done|].
        + apply until_close_Some in Ep as [-> _]. rewrite app_empty_l. done.
        + intros _ Hp. apply until_close_None_pending in Ep. congruence.
      - intros _. by destruct (Ascii.eqb c "}"). }
    simpl. f_equal. by apply IH.
Qed.

End Pattern.

(** ** Resolution of a template, piece by piece *)

Section Template.
Variable self : ChainContextBase.t.

Lemma resolve_fstring_app pre s :
  unclosed pre = false →
  _resolve_fstring self (pre +:+ s) =
  let* a := _resolve_fstring self pre in
  let* b := _resolve_fstring self s in
  ret (a +:+ b).
Proof.
  intros H. unfold _resolve_fstring, Re.sub.
  rewrite finditer_app by done. apply sub_pieces_app.
Qed.

Lemma resolve_fstring_placeholder e post :
  e ≠ "" → "}"%char ∉ chars e →
  _resolve_fstring self ("{" +:+ e +:+ "}" +:+ post) =
  let* text := replacer self e in
  let* tail := _resolve_fstring self post in
  ret (text +:+ tail).
Proof.
  intros He Hno. unfold _resolve_fstring, Re.sub.
  change ("{" +:+ ?x) with (String "{" x). rewrite finditer_String.
  change (String "{" ?x) with ("{" +:+ x).
  by rewrite match_here_placeholder.
Qed.

Lemma resolve_fstring_empty_braces post :
  _resolve_fstring self ("{}" +:+ post) =
  let* tail := _resolve_fstring self post in ret ("{}" +:+ tail).
Proof.
  unfold _resolve_fstring, Re.sub.
  change ("{}" +:+ post) with (String "{" (String "}" post)).
  rewrite !finditer_String. simpl.
  rewrite bind_assoc. apply bind_ext; intros tail. by rewrite bind_ret_l.
Qed.

Lemma resolve_fstring_literals t :
  ¬ has_placeholder t → _resolve_fstring self t = ret t.
Proof.
  intros H. unfold _resolve_fstring, Re.sub.
  rewrite finditer_no_placeholder by done. clear H.
  induction t as [|c t IH]; [done|].
  cbn [chars]. rewrite fmap_cons. cbn [Re.sub_pieces]. by rewrite IH, bind_ret_l.
Qed.

End Template.

(** ** The expression fragment *)

Section Names.

Lemma name_char_not_brace c : is_name_char c = true → c ≠ "}"%char.
Proof. by intros H ->. Qed.

Lemma name_chars_no_brace s :
  forallb is_name_char (chars s) = true → "}"%char ∉ chars s.
Proof.
  induction s as [|c s IH]; simpl; [intros _; apply not_elem_of_nil|].
  intros [Hc Hs]%andb_prop. apply not_elem_of_cons.
  split; [by apply not_eq_sym, name_char_not_brace|by apply IH].
Qed.

Lemma start_name_start c :
  is_name_start c = true → start c = Some (LName (String c ""), []).
Proof.
  intros H. unfold start.
  repeat match goal with
  | |- context [Ascii.eqb c ?x] =>
      destruct (Ascii.eqb_spec c x) as [->|_]; [by vm_compute in H|]
  end.
  simpl. by rewrite H.
Qed.

Lemma lex_name rest : ∀ word,
  forallb is_name_char (chars rest) = true →
  is_reserved (word +:+ rest) = false →
  lex (LName word) rest = Some [TName (word +:+ rest)].
Proof.
  induction rest as [|c rest IH]; intros word Hall Hres; simpl in *.
  - rewrite app_empty_r in *. by rewrite Hres.
  - apply andb_prop in Hall as [-> Hall].
    rewrite IH; rewrite ?app_assoc_str; done.
Qed.

Lemma is_identifier_chars name :
  is_identifier name = true → name ≠ "" ∧ "}"%char ∉ chars name.
Proof.
  destruct name as [|c rest]; [done|]. unfold is_identifier.
  intros [[Hc Hrest]%andb_prop _]%andb_prop. split; [done|].
  apply (name_chars_no_brace (String c rest)). simpl.
  unfold is_name_char at 1. by rewrite Hc, Hrest.
Qed.

Lemma compile_identifier name :
  is_identifier name = true → compile name = Some (inr (EName name)).
Proof.
  destruct name as [|c rest]; [done|]. unfold is_identifier.
  intros [[Hc Hrest]%andb_prop Hres%negb_true_iff]%andb_prop.
  unfold compile, tokenize. cbn [lex flush].
  rewrite start_name_start by done.
  rewrite lex_name by done. reflexivity.
Qed.

Lemma eval_identifier name locals :
  is_identifier name = true → eval name locals = load_name locals name.
Proof. intros H. unfold eval. by rewrite compile_identifier. Qed.

Lemma load_name_bound locals name v :
  locals !! name = Some v → load_name locals name = Some (Returns v).
Proof. intros H. unfold load_name. by rewrite H. Qed.

Lemma load_name_unbound locals name :
  locals !! name = None → is_builtin_name name = false →
  load_name locals name = Some (Raises (NameError name)).
Proof.
  intros H Hb. unfold load_name. rewrite H, Hb.
  rewrite bool_decide_eq_false_2; [done|].
  intros [Hin|Hin]%elem_of_app.
  - unfold is_builtin_name in Hb. by rewrite (bool_decide_eq_true_2 _ Hin) in Hb.
  - repeat (apply elem_of_cons in Hin as [->|Hin]; [by vm_compute in Hb|]).
    by apply elem_of_nil in Hin.
Qed.

Lemma load_name_builtin locals name :
  locals !! name = None → name ∈ builtin_functions →
  load_name locals name = Some (Returns (VBuiltin name)).
Proof.
  intros H Hin. unfold load_name. rewrite H.
  rewrite bool_decide_eq_true_2; [done|]. apply elem_of_app. by left.
Qed.

End Names.

Section Replacer.
Variable self : ChainContextBase.t.

Lemma replacer_returns e v text :
  eval e (context self) = Some (Returns v) → str v = Some text →
  replacer self e = ret text.
Proof. intros He Hs. unfold replacer. by rewrite He, Hs. Qed.

Lemma replacer_raises e x :
  eval e (context self) = Some (Raises x) →
  replacer self e =
  Some ("{" +:+ e +:+ "}", [{| diag_expression := e; diag_error := x |}]).
Proof. intros He. unfold replacer. by rewrite He. Qed.

Lemma resolve_single e :
  e ≠ "" → "}"%char ∉ chars e →
  _resolve_fstring self ("{" +:+ e +:+ "}") = replacer self e.
Proof.
  intros He Hno. rewrite <- (app_empty_r "}").
  rewrite resolve_fstring_placeholder by done.
  rewrite <- (bind_ret_r (replacer self e)) at 2.
  apply bind_ext; intros text.
  change (_resolve_fstring self "") with (ret (A:=string) "").
  by rewrite bind_ret_l, app_empty_r.
Qed.

Lemma resolve_name name v text :
  is_identifier name = true → context self !! name = Some v →
  str v = Some text →
  _resolve_fstring self ("{" +:+ name +:+ "}") = Some (text, []).
Proof.
  intros Hid Hv Hs. destruct (is_identifier_chars _ Hid) as [Hne Hno].
  rewrite resolve_single by done.
  erewrite replacer_returns; [done| |done].
  rewrite eval_identifier by done. by apply load_name_bound.
Qed.

Lemma resolve_undefined name :
  is_identifier name = true → context self !! name = None →
  is_builtin_name name = false →
  _resolve_fstring self ("{" +:+ name +:+ "}") =
  Some ("{" +:+ name +:+ "}",
        [{| diag_expression := name; diag_error := NameError name |}]).
Proof.
  intros Hid Hv Hb. destruct (is_identifier_chars _ Hid) as [Hne Hno].
  rewrite resolve_single by done. apply replacer_raises.
  rewrite eval_identifier by done. by apply load_name_unbound.
Qed.

End Replacer.

Lemma no_brace_check s :
  forallb (λ c, negb (Ascii.eqb c "}")) (chars s) = true → "}"%char ∉ chars s.
Proof.
  induction s as [|c s IH]; simpl; [intros _; apply not_elem_of_nil|].
  intros [Hc Hs]%andb_prop. apply not_elem_of_cons. split; [|by apply IH].
  intros <-. by rewrite Ascii.eqb_refl in Hc.
Qed.

(** ** Every match of the scan is a placeholder outside earlier spans *)

Section Occurrences.
Import Re.

Lemma until_close_None s : until_close s = None → "}"%char ∉ chars s.
Proof.
  induction s as [|c s IH]; simpl; [intros _; apply not_elem_of_nil|].
  destruct (Ascii.eqb_spec c "}") as [->|Hc]; [done|].
  destruct (until_close s) as [[b a]|]; [done|]. intros _.
  apply not_elem_of_cons. split; [congruence|by apply IH].
Qed.

Lemma finditer_Group t : ∀ e,
  Group e ∈ finditer t →
  ∃ pre post, t = pre +:+ "{" +:+ e +:+ "}" +:+ post
    ∧ unclosed pre = false ∧ e ≠ "" ∧ "}"%char ∉ chars e.
Proof.
  apply (finditer_ind (λ s ps, ∀ e, Group e ∈ ps →
    ∃ pre post, s = pre +:+ "{" +:+ e +:+ "}" +:+ post
      ∧ unclosed pre = false ∧ e ≠ "" ∧ "}"%char ∉ chars e)).
  - intros e H. by apply elem_of_nil in H.
  - intros c s e0 after E IH e Hin.
    apply match_here_Some in E as (E & He0 & Hno0).
    apply elem_of_cons in Hin as [[= ->]|Hin].
    + by exists "", after.
    + destruct (IH e Hin) as (pre & post & -> & Hpre & He & Hno).
      exists ("{" +:+ e0 +:+ "}" +:+ pre), post.
      split; [by rewrite E, !app_assoc_str|]. split; [|done].
      unfold unclosed. rewrite app_String, app_empty_l. simpl.
      change ("}" +:+ pre) with (String "}" pre). by rewrite pending_body.
  - intros c s E IH e Hin.
    apply elem_of_cons in Hin as [[=]|Hin].
    destruct (IH e Hin) as (pre & post & Hs & Hpre & He & Hno).
    exists (String c pre), post. split; [by rewrite Hs|]. split; [|done].
    revert E. unfold unclosed. simpl.
    destruct (Ascii.eqb_spec c "{") as [->|_];
      [|intros _; by destruct (Ascii.eqb c "}")].
    destruct (until_close s) as [[[|e0 e1] a]|] eqn:Es; [|done|]; intros _.
    + apply until_close_Some in Es as [Es _]. rewrite app_empty_l in Es.
      destruct pre as [|c' pre]; [by rewrite Hs in Es|].
      rewrite Hs, app_String in Es. injection Es as -> _. exact Hpre.
    + apply until_close_None in Es. destruct Es.
      rewrite Hs, !chars_app. set_solver.
Qed.

(** After an opening brace still open, an empty brace pair closes the
    placeholder that brace starts. *)
Lemma finditer_unclosed pre post :
  unclosed pre = true →
  ∃ ps e, finditer (pre +:+ "{}" +:+ post) = ps ++ Group e :: finditer post.
Proof.
  apply (finditer_ind (λ p _, unclosed p = true →
    ∃ ps e, finditer (p +:+ "{}" +:+ post) = ps ++ Group e :: finditer post)).
  - done.
  - intros c p e0 after E IH Hp.
    apply match_here_Some in E as (E & He0 & Hno0). rewrite E in Hp |- *.
    destruct IH as (ps & e & IH).
    { revert Hp. unfold unclosed. rewrite app_String, app_empty_l. simpl.
      change ("}" +:+ after) with (String "}" after). by rewrite pending_body. }
    exists (Group e0 :: ps), e.
    rewrite !app_assoc_str. change ("{" +:+ ?x) with (String "{" x).
    rewrite finditer_String. change (String "{" ?x) with ("{" +:+ x) at 1.
    rewrite match_here_placeholder by done. simpl. by rewrite IH.
  - intros c p E IH Hp. rewrite app_String, finditer_String.
    revert E Hp. unfold unclosed. simpl.
    destruct (Ascii.eqb_spec c "{") as [->|_].
    + destruct (until_close p) as [[[|e0 e1] a]|] eqn:Ep; [|done|]; intros _ Hp.
      * apply until_close_Some in Ep as [-> _]. rewrite app_empty_l in *.
        destruct IH as (ps & e & IH); [done|].
        exists (Literal "{" :: ps), e. simpl. by rewrite IH.
      * apply until_close_None in Ep.
        exists [], (p +:+ "{").
        change ("{}" +:+ post) with ("{" +:+ String "}" post).
        rewrite <- app_assoc_str, until_close_app.
        -- by destruct p.
        -- rewrite chars_app. apply not_elem_of_app. split; [done|].
           by apply no_brace_check.
    + intros _ Hp. destruct IH as (ps & e & IH);
        [by destruct (Ascii.eqb c "}")|].
      exists (Literal c :: ps), e. by rewrite IH.
Qed.


End Occurrences.

Section Walk.
Context {A B : Type}.

Lemma run_list_Some (f : A → Run B) l : ∀ ys out,
  run_list f l = Some (ys, out) ↔
  ∃ outs, Forall3 (λ x y o, f x = Some (y, o)) l ys outs ∧ out = concat outs.
Proof.
  induction l as [|x l IH]; intros ys out; simpl.
  - unfold ret. split.
    + intros [= <- <-]. exists []. split; [constructor|done].
    + intros (outs & H & ->). by inversion H.
  - split.
    + unfold bind at 1. destruct (f x) as [[y o]|] eqn:Ex; [|done].
      unfold bind. destruct (run_list f l) as [[ys' out']|] eqn:El; [|done].
      unfold ret. rewrite app_nil_r. intros [= <- <-].
      destruct (proj1 (IH ys' out') eq_refl) as (outs & H & ->).
      exists (o :: outs). split; [by constructor|done].
    + intros (outs & H & ->).
      apply Forall3_cons_inv_l in H as (y & ys' & o & outs' & -> & -> & Hx & Hl).
      assert (run_list f l = Some (ys', concat outs')) as Hr by (apply IH; eauto).
      rewrite Hx, Hr. unfold bind, ret. simpl. by rewrite app_nil_r.
Qed.

End Walk.

Section Around.
Variable self : ChainContextBase.t.

(** A placeholder in its template: what comes before it, its replacement,
    what comes after it. *)
Lemma resolve_fstring_around pre e post :
  unclosed pre = false → e ≠ "" → "}"%char ∉ chars e →
  _resolve_fstring self (pre +:+ "{" +:+ e +:+ "}" +:+ post) =
  let* a := _resolve_fstring self pre in
  let* text := replacer self e in
  let* b := _resolve_fstring self post in
  ret (a +:+ text +:+ b).
Proof.
  intros Hpre He Hno. rewrite resolve_fstring_app by done.
  apply bind_ext; intros a. rewrite resolve_fstring_placeholder by done.
  rewrite bind_assoc. apply bind_ext; intros text.
  rewrite bind_assoc. apply bind_ext; intros b. by rewrite bind_ret_l.
Qed.

Lemma resolve_fstring_around_braces pre post :
  unclosed pre = false →
  _resolve_fstring self (pre +:+ "{}" +:+ post) =
  let* a := _resolve_fstring self pre in
  let* b := _resolve_fstring self post in
  ret (a +:+ "{}" +:+ b).
Proof.
  intros Hpre. rewrite resolve_fstring_app by done.
  apply bind_ext; intros a. rewrite resolve_fstring_empty_braces.
  rewrite bind_assoc. apply bind_ext; intros b. by rewrite bind_ret_l.
Qed.

End Around.

(** ** The ways a call ends *)








Section Endings.
Variable self : ChainContextBase.t.






Lemma replacer_call_raises e x :
  eval e (context self) = Some (Raises x) →
  replacer_call self e =
  Returned ("{" +:+ e +:+ "}") [{| diag_expression := e; diag_error := x |}].
Proof. intros He. unfold replacer_call. by rewrite He. Qed.

Lemma replacer_call_Propagated e b ds :
  replacer_call self e = Propagated b ds →
  eval e (context self) = Some (Exits b) ∧ ds = [].
Proof.
  unfold replacer_call.
  destruct (eval e (context self)) as [[v|x|b']|]; try done.
  - by destruct (str v).
  - by intros [= -> <-].
Qed.

Lemma replacer_call_Returned e text ds :
  replacer_call self e = Returned text ds →
  ds = option_list (diagnostic_of self e).
Proof.
  unfold replacer_call, diagnostic_of.
  destruct (eval e (context self)) as [[v|x|b']|]; try done.
  - destruct (str v); [|done]. by intros [= _ <-].
  - by intros [= _ <-].
Qed.


(** What ends a call is an exception of a placeholder that is no instance
    of [Exception]; the lines printed are those of the placeholders before
    it. *)
Lemma sub_pieces_call_Propagated ps : ∀ b ds,
  Re.sub_pieces_call (replacer_call self) ps = Propagated b ds →
  ∃ before e after,
    groups ps = before ++ e :: after
    ∧ eval e (context self) = Some (Exits b)
    ∧ ds = omap (diagnostic_of self) before.
Proof.
  induction ps as [|[c|e] ps IH]; intros b ds; simpl.
  - done.
  - unfold call_bind.
    destruct (Re.sub_pieces_call (replacer_call self) ps) as [a d|b' d|] eqn:E;
      [done| |done].
    intros [= -> ->]. by apply IH.
  - unfold call_bind.
    destruct (replacer_call self e) as [text d1|b1 d1|] eqn:Er; [| |done].
    + apply replacer_call_Returned in Er as ->.
      destruct (Re.sub_pieces_call (replacer_call self) ps) as [a d|b' d|] eqn:E;
        [done| |done].
      intros [= -> <-].
      destruct (IH b d eq_refl) as (before & e' & after & Hg & He' & ->).
      exists (e :: before), e', after. rewrite Hg. split; [done|]. split; [done|].
      simpl. by destruct (diagnostic_of self e).
    + apply replacer_call_Propagated in Er as [He ->].
      intros [= -> <-]. by exists [], e, (groups ps).
Qed.

Lemma sub_pieces_call_Returned ps : ∀ out ds,
  Re.sub_pieces_call (replacer_call self) ps = Returned out ds →
  ds = omap (diagnostic_of self) (groups ps).
Proof.
  induction ps as [|[c|e] ps IH]; intros out ds; simpl.
  - by intros [= _ <-].
  - unfold call_bind, call_ret.
    destruct (Re.sub_pieces_call (replacer_call self) ps) as [a d|b' d|];
      [|done..].
    intros [= _ <-]. rewrite app_nil_r. by eapply IH.
  - unfold call_bind, call_ret.
    destruct (replacer_call self e) as [text d1|b1 d1|] eqn:Er; [|done..].
    apply replacer_call_Returned in Er as ->.
    destruct (Re.sub_pieces_call (replacer_call self) ps) as [a d|b' d|];
      [|done..].
    intros [= _ <-]. rewrite app_nil_r, (IH a d eq_refl).
    by destruct (diagnostic_of self e).
Qed.

End Endings.

(** ** Properties of the template resolver *)

(** C6. A template without placeholder is returned as it is, with nothing
    printed; hence a resolved template that holds no placeholder any more
    is left unchanged by a second resolution. *)
Theorem resolve_fstring_without_placeholder (self : ChainContextBase.t) :
  (∀ template, ¬ has_placeholder template →
     _resolve_fstring self template = Some (template, []))
  ∧ (∀ template resolved out,
       _resolve_fstring self template = Some (resolved, out) →
       ¬ has_placeholder resolved →
       _resolve_fstring self resolved = Some (resolved, [])).
Proof.
  split.
  - intros template H. by apply resolve_fstring_literals.
  - intros template resolved out _ H. by apply resolve_fstring_literals.
Qed.

Lemma no_placeholder_plain : ¬ has_placeholder "plain {} text}".
Proof.
  intros H. apply finditer_has_placeholder in H as [e He].
  vm_compute in He. repeat (apply elem_of_cons in He as [[=]|He]).
  by apply elem_of_nil in He.
Qed.

Lemma resolve_fstring_without_placeholder_witness :
  _resolve_fstring (new_context ∅) "plain {} text}" = Some ("plain {} text}", [])
  ∧ _resolve_fstring (new_context {[ "x" := VStr "plain {} text}" ]}) "plain {} text}"
    = Some ("plain {} text}", []).
Proof.
  split.
  - apply (proj1 (resolve_fstring_without_placeholder (new_context ∅))).
    exact no_placeholder_plain.
  - apply (proj2 (resolve_fstring_without_placeholder
                    (new_context {[ "x" := VStr "plain {} text}" ]}))
             "{x}" "plain {} text}" []).
    + vm_compute. reflexivity.
    + exact no_placeholder_plain.
Defined.




(** C10. Substitution is a single pass over the template: the text put in
    place of a placeholder is the string of the value, whatever it holds,
    and is not scanned again, so braces in it stay as they are. *)
Theorem substitution_is_single_pass (self : ChainContextBase.t)
    pre e post v text out1 d1 out2 d2 :
  unclosed pre = false → e ≠ "" → "}"%char ∉ chars e →
  eval e (context self) = Some (Returns v) →
  str v = Some text →
  _resolve_fstring self pre = Some (out1, d1) →
  _resolve_fstring self post = Some (out2, d2) →
  _resolve_fstring self (pre +:+ "{" +:+ e +:+ "}" +:+ post) =
  Some (out1 +:+ text +:+ out2, d1 ++ d2).
Proof.
  intros Hpre He Hno Hv Hs H1 H2.
  rewrite resolve_fstring_around by done.
  rewrite H1, H2, (replacer_returns _ _ _ _ Hv Hs). unfold bind, ret. simpl.
  by rewrite app_nil_r.
Qed.

Lemma substitution_is_single_pass_witness :
  _resolve_fstring (new_context {[ "x" := VStr "{y}"; "y" := VInt 2 ]})
    ("" +:+ "{" +:+ "x" +:+ "}" +:+ "")
  = Some ("" +:+ "{y}" +:+ "", [] ++ []).
Proof.
  apply (substitution_is_single_pass
           (new_context {[ "x" := VStr "{y}"; "y" := VInt 2 ]})
           "" "x" "" (VStr "{y}") "{y}" "" [] "" []).
  - reflexivity.
  - discriminate.
  - by apply no_brace_check.
  - vm_compute. reflexivity.
  - reflexivity.
  - reflexivity.
  - reflexivity.
Defined.

(** C9, as it is written, fails: an empty brace pair that follows an
    opening brace still open belongs to the placeholder that brace starts.
    Here the pair ends the comment of the expression [x #{], which is
    evaluated, and the pair is not in the result. *)
Lemma empty_braces_inside_span :
  Re.finditer ("{x #" +:+ "{}") = [Re.Group "x #{"]
  ∧ _resolve_fstring (new_context {[ "x" := VInt 5 ]}) ("{x #" +:+ "{}")
    = Some ("5", []).
Proof. split; vm_compute; reflexivity. Qed.

(** C9, amended. An empty brace pair that is not inside a span opened
    earlier is no placeholder: the scan yields its two characters as
    literals, between the pieces of the text before and of the text after,
    so nothing is evaluated for it; the result holds it as it is and no
    diagnostic is printed for it. *)
Theorem empty_braces_left_verbatim (self : ChainContextBase.t)
    pre post out1 d1 out2 d2 :
  unclosed pre = false →
  _resolve_fstring self pre = Some (out1, d1) →
  _resolve_fstring self post = Some (out2, d2) →
  Re.finditer (pre +:+ "{}" +:+ post) =
    Re.finditer pre ++ [Re.Literal "{"; Re.Literal "}"] ++ Re.finditer post
  ∧ _resolve_fstring self (pre +:+ "{}" +:+ post) =
    Some (out1 +:+ "{}" +:+ out2, d1 ++ d2).
Proof.
  intros Hpre H1 H2. split.
  - rewrite finditer_app by done. reflexivity.
  - rewrite resolve_fstring_around_braces by done.
    rewrite H1, H2. unfold bind, ret. simpl. by rewrite app_nil_r.
Qed.

Lemma empty_braces_left_verbatim_witness :
  Re.finditer ("" +:+ "{}" +:+ "") =
    Re.finditer "" ++ [Re.Literal "{"; Re.Literal "}"] ++ Re.finditer ""
  ∧ _resolve_fstring (new_context ∅) ("" +:+ "{}" +:+ "") =
    Some ("" +:+ "{}" +:+ "", [] ++ []).
Proof.
  apply (empty_braces_left_verbatim (new_context ∅) "" "" "" [] "" []);
    reflexivity.
Defined.

(** C7. The two end-to-end vectors. *)
Theorem end_to_end_vectors :
  _resolve_fstring (new_context {[ "x" := VInt 5; "y" := VInt 10 ]}) "sum={x+y}"
  = Some ("sum=15", [])
  ∧ _resolve_placeholders (new_context {[ "x" := VInt 1; "y" := VInt 2 ]})
      (VDict [(VStr "a", VStr "{x}"); (VStr "b", VList [VStr "{y}"; VInt 3])])
    = Some (VDict [(VStr "a", VStr "1"); (VStr "b", VList [VStr "2"; VInt 3])], []).
Proof. split; vm_compute; reflexivity. Qed.

(** C8. [_resolve_ref] removes one leading [$] from a string and returns
    every other value as it is; the Context plays no part. *)
Theorem resolve_ref_strips_one_sigil (self : ChainContextBase.t) :
  (∀ s, _resolve_ref self (VStr ("$" +:+ s)) = VStr s)
  ∧ (∀ v, (∀ s, v ≠ VStr ("$" +:+ s)) → _resolve_ref self v = v)
  ∧ _resolve_ref self (VStr "$foo") = VStr "foo"
  ∧ _resolve_ref self (VStr "foo") = VStr "foo"
  ∧ _resolve_ref self (VInt 42) = VInt 42.
Proof.
  split; [done|]. split; [|done].
  intros v Hv. destruct v as [| | |s| | | |]; try done.
  destruct s as [|c s]; [done|]. simpl.
  destruct (Ascii.eqb_spec c "$") as [->|Hc].
  - by destruct (Hv s).
  - destruct c as [[] [] [] [] [] [] [] []]; try done.
Qed.

Lemma resolve_ref_strips_one_sigil_witness :
  _resolve_ref (new_context {[ "foo" := VInt 1 ]}) (VStr "foo") = VStr "foo"
  ∧ _resolve_ref (new_context {[ "foo" := VInt 1 ]}) (VStr ("$" +:+ "$foo")) = VStr "$foo".
Proof.
  split.
  - apply (proj1 (proj2 (resolve_ref_strips_one_sigil
                           (new_context {[ "foo" := VInt 1 ]})))).
    intros s. destruct s; discriminate.
  - apply (proj1 (resolve_ref_strips_one_sigil (new_context {[ "foo" := VInt 1 ]}))).
Defined.

(** C3, as it is written, fails: a key is found only when the placeholder
    expression is that key as a name.  The key ["1"] is bound, but [{1}]
    holds the integer literal [1]. *)
Lemma key_that_is_no_identifier :
  ({[ "1" := VStr "one" ]} : gmap string Value) !! "1" = Some (VStr "one")
  ∧ str (VStr "one") = Some "one"
  ∧ _resolve_fstring (new_context {[ "1" := VStr "one" ]}) ("{" +:+ "1" +:+ "}")
    = Some ("1", []).
Proof. repeat split; vm_compute; reflexivity. Qed.

(** C3, amended. For a key [k] that is an ASCII identifier (an ASCII
    letter or an underscore, then ASCII letters, digits and underscores;
    no keyword and not [__debug__]) and is bound in the Context to a value
    of which [str] returns a string, the template [{k}] resolves to that
    string, and nothing is printed. *)
Theorem resolve_bound_identifier (self : ChainContextBase.t) k v text :
  is_identifier k = true →
  context self !! k = Some v →
  str v = Some text →
  _resolve_fstring self ("{" +:+ k +:+ "}") = Some (text, []).
Proof.
  intros Hid Hv Hs.
  destruct (is_identifier_chars k Hid) as [Hne Hno].
  rewrite resolve_single by done.
  assert (eval k (context self) = Some (Returns v)) as He.
  { rewrite eval_identifier by done. unfold load_name. by rewrite Hv. }
  unfold replacer. by rewrite He, Hs.
Qed.

Lemma resolve_bound_identifier_witness :
  _resolve_fstring
    (new_context {[ "len" := VList [VStr "it's"; VTuple [VInt (-7)]; VNone] ]})
    ("{" +:+ "len" +:+ "}")
  = Some ("[" +:+ String DQUOTE "it's" +:+ String DQUOTE ", (-7,), None]", []).
Proof.
  apply (resolve_bound_identifier
           (new_context {[ "len" := VList [VStr "it's"; VTuple [VInt (-7)]; VNone] ]})
           "len" (VList [VStr "it's"; VTuple [VInt (-7)]; VNone])).
  - reflexivity.
  - vm_compute. reflexivity.
  - vm_compute. reflexivity.
Defined.

(** C1, as it is written, fails: [eval] adds the [builtins] module to the
    empty globals it is given, so a name the Context does not bind can
    still be found there.  With an empty Context, [abs] is resolved and
    the placeholder is replaced. *)
Lemma builtin_found_outside_context :
  referenced_names "abs(-3)" = ["abs"]
  ∧ (∅ : gmap string Value) !! "abs" = None
  ∧ eval "abs(-3)" ∅ = Some (Returns (VInt 3))
  ∧ _resolve_fstring (new_context ∅) "{abs(-3)}" = Some ("3", []).
Proof. repeat split; vm_compute; reflexivity. Qed.

(** C1, amended. A name in a placeholder is looked up in the Context
    first, then in the builtins, and nowhere else.  For a placeholder that
    is one ASCII identifier: bound in the Context, it evaluates to the
    value bound there, also when a builtin has that name; not bound in the
    Context and the name of a builtin function such as [abs] or [len], it
    evaluates to that builtin; bound in neither, it fails with a
    [NameError] and is left as it is. *)
Theorem names_resolve_in_context_then_builtins
    (self : ChainContextBase.t) name :
  is_identifier name = true →
  (∀ v, context self !! name = Some v →
        eval name (context self) = Some (Returns v))
  ∧ (context self !! name = None → name ∈ builtin_functions →
     eval name (context self) = Some (Returns (VBuiltin name))
     ∧ _resolve_fstring self ("{" +:+ name +:+ "}") =
       Some ("<built-in function " +:+ name +:+ ">", []))
  ∧ (context self !! name = None → is_builtin_name name = false →
     eval name (context self) = Some (Raises (NameError name))
     ∧ _resolve_fstring self ("{" +:+ name +:+ "}") =
       Some ("{" +:+ name +:+ "}",
             [{| diag_expression := name; diag_error := NameError name |}])).
Proof.
  intros Hid. destruct (is_identifier_chars _ Hid) as [Hne Hno].
  rewrite eval_identifier by done. split; [|split].
  - intros v Hv. by apply load_name_bound.
  - intros Hctx Hb.
    assert (eval name (context self) = Some (Returns (VBuiltin name))) as He
      by (rewrite eval_identifier by done; by apply load_name_builtin).
    split; [by apply load_name_builtin|].
    rewrite resolve_single by done. apply (replacer_returns _ _ _ _ He).
    simpl. by rewrite bool_decide_eq_true_2.
  - intros Hctx Hb. split; [by apply load_name_unbound|].
    by apply resolve_undefined.
Qed.

Lemma names_resolve_in_context_then_builtins_witness :
  eval "len" {[ "len" := VInt 3 ]} = Some (Returns (VInt 3))
  ∧ _resolve_fstring (new_context {[ "len" := VInt 3 ]}) ("{" +:+ "abs" +:+ "}") =
    Some ("<built-in function " +:+ "abs" +:+ ">", [])
  ∧ _resolve_fstring (new_context {[ "len" := VInt 3 ]}) ("{" +:+ "missing" +:+ "}") =
    Some ("{" +:+ "missing" +:+ "}",
          [{| diag_expression := "missing"; diag_error := NameError "missing" |}]).
Proof.
  split; [|split].
  - refine (proj1 (names_resolve_in_context_then_builtins
                     (new_context {[ "len" := VInt 3 ]}) "len" _) (VInt 3) _).
    + reflexivity.
    + vm_compute. reflexivity.
  - refine (proj2 (proj1 (proj2 (names_resolve_in_context_then_builtins
                     (new_context {[ "len" := VInt 3 ]}) "abs" _)) _ _)).
    + reflexivity.
    + vm_compute. reflexivity.
    + apply list_elem_of_here.
  - refine (proj2 (proj2 (proj2 (names_resolve_in_context_then_builtins
                     (new_context {[ "len" := VInt 3 ]}) "missing" _)) _ _)).
    + reflexivity.
    + vm_compute. reflexivity.
    + vm_compute. reflexivity.
Defined.

Lemma update_Updated self kwargs :
  kwargs !! "self" = None →
  update self kwargs =
  Updated {| steps := steps self; context := kwargs ∪ context self;
             resource := resource self |}.
Proof. intros H. unfold update. by rewrite H. Qed.

Lemma update_inv self kwargs self' :
  update self kwargs = Updated self' →
  kwargs !! "self" = None
  ∧ context self' = kwargs ∪ context self
  ∧ steps self' = steps self ∧ resource self' = resource self.
Proof.
  unfold update. destruct (kwargs !! "self"); [done|]. by intros [= <-].
Qed.

(** C5, as it is written, fails: the result is not a function of the
    contents of the Context up to equality.  These two Contexts are equal,
    as [1 == True], and the same template gives two strings. *)
Lemma equal_contexts_different_results :
  dict_eq {[ "x" := VInt 1 ]} {[ "x" := VBool true ]}
  ∧ _resolve_fstring (new_context {[ "x" := VInt 1 ]}) "{x}" = Some ("1", [])
  ∧ _resolve_fstring (new_context {[ "x" := VBool true ]}) "{x}" = Some ("True", []).
Proof.
  split; [|split; vm_compute; reflexivity]. split.
  - by rewrite !dom_singleton_L.
  - intros key a b [_ <-]%lookup_singleton_Some [_ <-]%lookup_singleton_Some.
    reflexivity.
Qed.

(** C5, amended. A resolution reads the Context as it is when the call is
    made, nothing is kept from earlier calls: after [update], a
    placeholder that is an ASCII identifier (no keyword, not [__debug__])
    given to [update] resolves to the string of the new value whatever it
    resolved to before, one that [update] was not given resolves as
    before, and for every object some [update] changes the result of some
    template. *)
Theorem resolution_reads_context_at_call_time (self : ChainContextBase.t) :
  (∀ kwargs self' k,
     update self kwargs = Updated self' → is_identifier k = true →
     (∀ v text, kwargs !! k = Some v → str v = Some text →
        _resolve_fstring self' ("{" +:+ k +:+ "}") = Some (text, []))
     ∧ (kwargs !! k = None →
        _resolve_fstring self' ("{" +:+ k +:+ "}")
        = _resolve_fstring self ("{" +:+ k +:+ "}")))
  ∧ ∃ kwargs self' template,
      update self kwargs = Updated self'
      ∧ _resolve_fstring self' template ≠ _resolve_fstring self template.
Proof.
  split.
  - intros kwargs self' k (_ & Hctx & _)%update_inv Hid. split.
    + intros v text Hk Hs. eapply resolve_name; [done| |done].
      rewrite Hctx. by apply lookup_union_Some_l.
    + intros Hk. destruct (is_identifier_chars _ Hid) as [Hne Hno].
      rewrite !resolve_single by done. unfold replacer.
      rewrite !eval_identifier by done. unfold load_name.
      by rewrite Hctx, lookup_union_r.
  - assert (∀ z text, str (VInt z) = Some text →
      ∃ self', update self {[ "x" := VInt z ]} = Updated self'
        ∧ _resolve_fstring self' ("{" +:+ "x" +:+ "}") = Some (text, []))
      as Hupd.
    { intros z text Hs. eexists. split; [by apply update_Updated|].
      eapply resolve_name; [done| |done].
      simpl. apply lookup_union_Some_l, lookup_singleton_eq. }
    destruct (Hupd 0%Z "0" eq_refl) as (s0 & Hu0 & H0).
    destruct (Hupd 1%Z "1" eq_refl) as (s1 & Hu1 & H1).
    destruct (_resolve_fstring self ("{" +:+ "x" +:+ "}")) as [[r d]|] eqn:E.
    + destruct (decide (r = "0")) as [->|Hr].
      * exists {[ "x" := VInt 1 ]}, s1, ("{" +:+ "x" +:+ "}").
        split; [done|]. rewrite H1, E. by intros [=].
      * exists {[ "x" := VInt 0 ]}, s0, ("{" +:+ "x" +:+ "}").
        split; [done|]. rewrite H0, E. by intros [= <-].
    + exists {[ "x" := VInt 0 ]}, s0, ("{" +:+ "x" +:+ "}").
      split; [done|]. by rewrite H0, E.
Qed.

Lemma resolution_reads_context_at_call_time_witness :
  _resolve_fstring
    {| steps := [Step 1]; context := {[ "x" := VStr "new" ]} ∪ {[ "x" := VInt 1; "y" := VInt 2 ]};
       resource := Some "chain" |} ("{" +:+ "x" +:+ "}") = Some ("new", [])
  ∧ _resolve_fstring
      {| steps := [Step 1]; context := {[ "x" := VStr "new" ]} ∪ {[ "x" := VInt 1; "y" := VInt 2 ]};
         resource := Some "chain" |} ("{" +:+ "y" +:+ "}")
    = _resolve_fstring
        {| steps := [Step 1]; context := {[ "x" := VInt 1; "y" := VInt 2 ]};
           resource := Some "chain" |} ("{" +:+ "y" +:+ "}").
Proof.
  pose proof (proj1 (resolution_reads_context_at_call_time
    {| steps := [Step 1]; context := {[ "x" := VInt 1; "y" := VInt 2 ]};
       resource := Some "chain" |})) as H.
  split.
  - refine (proj1 (H {[ "x" := VStr "new" ]} _ "x" _ _) (VStr "new") "new" _ _).
    + vm_compute. reflexivity.
    + reflexivity.
    + vm_compute. reflexivity.
    + reflexivity.
  - refine (proj2 (H {[ "x" := VStr "new" ]} _ "y" _ _) _).
    + vm_compute. reflexivity.
    + reflexivity.
    + vm_compute. reflexivity.
Defined.

(** ** Properties of the placeholder walker *)

Lemma bind_ret_Some {A B} (m : Run A) (f : A → B) r out :
  (let* x := m in ret (f x)) = Some (r, out) ↔
  ∃ x, m = Some (x, out) ∧ r = f x.
Proof.
  unfold bind, ret. destruct m as [[x o]|].
  - rewrite app_nil_r. split.
    + intros [= <- <-]. eauto.
    + by intros (x' & [= <- <-] & ->).
  - split; [done|]. by intros (x & ? & _).
Qed.




(** * Further properties of the class *)

(** ** The Context store *)

(** X1. [update] refuses the key [self] with a [TypeError] and leaves the
    object as it was; with any other keys it returns, and then
    [get_value] reads the new value at a key given to [update], what it
    read before at any other key, and [None] at a key bound nowhere. *)
Theorem get_value_update (self : ChainContextBase.t) kwargs :
  (is_Some (kwargs !! "self") →
   update self kwargs = UpdateTypeError ∧ after_update self kwargs = self)
  ∧ (kwargs !! "self" = None →
     ∃ self', update self kwargs = Updated self'
       ∧ ∀ key,
           (∀ v, kwargs !! key = Some v → get_value self' key = v)
           ∧ (kwargs !! key = None → get_value self' key = get_value self key)
           ∧ (kwargs !! key = None → context self !! key = None →
              get_value self' key = VNone)).
Proof.
  split.
  - intros [v Hv]. unfold after_update, update. by rewrite Hv.
  - intros Hs. eexists. split; [by apply update_Updated|].
    intros key. unfold get_value. simpl. rewrite lookup_union.
    split; [|split].
    + intros v ->. by destruct (context self !! key).
    + intros ->. by destruct (context self !! key).
    + by intros -> ->.
Qed.

Lemma get_value_update_witness :
  update (new_context {[ "a" := VInt 1 ]}) {[ "self" := VInt 1; "a" := VInt 2 ]}
  = UpdateTypeError
  ∧ after_update (new_context {[ "a" := VInt 1 ]}) {[ "self" := VInt 1; "a" := VInt 2 ]}
    = new_context {[ "a" := VInt 1 ]}
  ∧ ∃ self',
      update (new_context {[ "a" := VInt 1; "b" := VInt 2 ]})
             {[ "a" := VStr "new"; "c" := VNone ]} = Updated self'
      ∧ get_value self' "a" = VStr "new"
      ∧ get_value self' "b"
        = get_value (new_context {[ "a" := VInt 1; "b" := VInt 2 ]}) "b"
      ∧ get_value self' "z" = VNone.
Proof.
  split; [|split].
  - apply (proj1 (get_value_update (new_context {[ "a" := VInt 1 ]})
                    {[ "self" := VInt 1; "a" := VInt 2 ]})).
    vm_compute. eauto.
  - apply (proj1 (get_value_update (new_context {[ "a" := VInt 1 ]})
                    {[ "self" := VInt 1; "a" := VInt 2 ]})).
    vm_compute. eauto.
  - destruct (proj2 (get_value_update
                       (new_context {[ "a" := VInt 1; "b" := VInt 2 ]})
                       {[ "a" := VStr "new"; "c" := VNone ]}))
      as (self' & Hu & H); [vm_compute; reflexivity|].
    exists self'. split; [exact Hu|]. split; [|split].
    + apply (proj1 (H "a")). vm_compute. reflexivity.
    + apply (proj1 (proj2 (H "b"))). vm_compute. reflexivity.
    + apply (proj2 (proj2 (H "z"))); vm_compute; reflexivity.
Defined.

(** X2. Calls of [update] that return compose: two calls in a row are one
    call with the second arguments laid over the first, a call without
    arguments changes nothing, and a call repeated changes nothing more.
    The steps and the resource are never touched. *)
Theorem update_compose (self : ChainContextBase.t) a b s1 s2 :
  update self a = Updated s1 → update s1 b = Updated s2 →
  update self (b ∪ a) = Updated s2
  ∧ update self ∅ = Updated self
  ∧ update s1 a = Updated s1
  ∧ steps s1 = steps self
  ∧ resource s1 = resource self.
Proof.
  intros (Ha & Hc1 & Hs1 & Hr1)%update_inv (Hb & Hc2 & Hs2 & Hr2)%update_inv.
  destruct self as [st ctx res], s1 as [st1 ctx1 res1], s2 as [st2 ctx2 res2].
  simpl in *. subst. split; [|split; [|split; [|done]]].
  - rewrite update_Updated by (by rewrite lookup_union, Hb, Ha).
    simpl. by rewrite (assoc_L (∪)).
  - rewrite update_Updated by done. simpl. by rewrite (left_id_L ∅ (∪)).
  - rewrite update_Updated by done. simpl.
    by rewrite (assoc_L (∪)), (idemp_L (∪)).
Qed.

Lemma update_compose_witness :
  update (new_context {[ "a" := VInt 1 ]}) ({[ "a" := VInt 3 ]} ∪ {[ "b" := VInt 2 ]})
  = Updated (new_context ({[ "a" := VInt 3 ]} ∪ ({[ "b" := VInt 2 ]} ∪ {[ "a" := VInt 1 ]}))).
Proof.
  apply (update_compose (new_context {[ "a" := VInt 1 ]})
           {[ "b" := VInt 2 ]} {[ "a" := VInt 3 ]}
           (new_context ({[ "b" := VInt 2 ]} ∪ {[ "a" := VInt 1 ]}))).
  - vm_compute. reflexivity.
  - vm_compute. reflexivity.
Defined.

(** X3. [update] never removes a key: the keys after a call that returns
    are the keys before it and those of the arguments, a call that raises
    keeps the keys, so a key once bound stays bound through any sequence
    of calls. *)
Theorem update_keeps_keys (self : ChainContextBase.t) :
  (∀ kwargs self', update self kwargs = Updated self' →
     dom (context self') = dom kwargs ∪ dom (context self))
  ∧ ∀ calls key,
      is_Some (context self !! key) →
      is_Some (context (updates self calls) !! key).
Proof.
  split.
  - intros kwargs self' (_ & -> & _)%update_inv. by rewrite dom_union_L.
  - intros calls. revert self. unfold updates.
    induction calls as [|kw calls IH]; intros self key Hk; [done|].
    simpl. apply IH. unfold after_update.
    destruct (update self kw) as [self'|] eqn:E; [|done].
    apply update_inv in E as (_ & -> & _). rewrite lookup_union.
    destruct Hk as [v ->]. by destruct (kw !! key).
Qed.

Lemma update_keeps_keys_witness :
  is_Some (context (updates (new_context {[ "a" := VInt 1 ]})
                            [ {[ "b" := VInt 2 ]}; {[ "self" := VNone ]};
                              {[ "a" := VNone ]} ])
           !! "a").
Proof.
  apply (proj2 (update_keeps_keys (new_context {[ "a" := VInt 1 ]}))).
  vm_compute. eauto.
Defined.

(** ** The scan of a template *)

(** X4. The scan cuts the template without losing a character: the
    literal characters and the placeholders [{expression}], put together in
    order, are the template again. *)
Theorem unscan_finditer (template : string) :
  unscan (Re.finditer template) = template.
Proof.
  apply (finditer_ind (λ s ps, unscan ps = s)).
  - done.
  - intros c s e after E IH.
    apply match_here_Some in E as (-> & _ & _).
    simpl. rewrite IH. by rewrite !app_assoc_str.
  - intros c s _ IH. simpl. by rewrite IH.
Qed.

(** X5. The pattern matches somewhere exactly when the template holds an
    opening brace, one or more characters other than a closing brace, and
    a closing brace; and the expression of every match is not empty and
    holds no closing brace (it may hold opening ones). *)
Theorem placeholders_exact (template : string) :
  (has_placeholder template ↔ placeholders template ≠ [])
  ∧ ∀ e, e ∈ placeholders template → e ≠ "" ∧ "}"%char ∉ chars e.
Proof.
  assert (∀ ps e, e ∈ groups ps ↔ Re.Group e ∈ ps) as Hgroups.
  { intros ps e. unfold groups. rewrite list_elem_of_omap. split.
    - intros ([c|e'] & Hin & [= ->]). done.
    - intros Hin. by exists (Re.Group e). }
  unfold placeholders. split; [split|].
  - intros [e He]%finditer_has_placeholder.
    apply Hgroups in He. intros Hnil. rewrite Hnil in He.
    by apply elem_of_nil in He.
  - destruct (groups (Re.finditer template)) as [|e es] eqn:E; [done|].
    intros _. assert (e ∈ groups (Re.finditer template)) as He
      by (rewrite E; apply list_elem_of_here).
    apply Hgroups, finditer_Group in He as (pre & post & -> & _ & Hne & Hno).
    by exists pre, e, post.
  - intros e He. apply Hgroups, finditer_Group in He
      as (pre & post & _ & _ & Hne & Hno). done.
Qed.

Lemma placeholders_exact_witness :
  "a{b" ≠ "" ∧ "}"%char ∉ chars "a{b".
Proof.
  apply (proj2 (placeholders_exact "x{}{a{b}}") "a{b").
  vm_compute. apply list_elem_of_here.
Defined.

(** ** Diagnostics of a resolution *)

Lemma sub_pieces_call_all_raise self ps :
  (∀ e, e ∈ groups ps → ∃ x, eval e (context self) = Some (Raises x)) →
  ∃ ds, Re.sub_pieces_call (replacer_call self) ps = Returned (unscan ps) ds
        ∧ diag_expression <$> ds = groups ps.
Proof.
  induction ps as [|[c|e] ps IH]; intros H; simpl.
  - by exists [].
  - destruct (IH H) as (ds & -> & Hds). exists ds.
    unfold call_bind, call_ret. by rewrite app_nil_r.
  - destruct (H e) as [x Hx]; [apply list_elem_of_here|].
    destruct IH as (ds & -> & Hds).
    { intros e' He'. apply H. by apply list_elem_of_further. }
    rewrite (replacer_call_raises _ _ _ Hx).
    exists ({| diag_expression := e; diag_error := x |} :: ds).
    unfold call_bind, call_ret. split.
    + simpl. by rewrite app_nil_r, !app_assoc_str.
    + rewrite fmap_cons, Hds. done.
Qed.

(** X6. The lines a resolution prints are the failures of the
    placeholders it went through, in the order of the template: when the
    call returns, one line for each placeholder that raised an instance of
    [Exception] and none for the others; when an exception ends the call,
    the same for the placeholders before the one that raised it. *)
Theorem diagnostics_exact (self : ChainContextBase.t) template :
  (∀ out ds,
     _resolve_fstring_call self template = Returned out ds →
     ds = omap (diagnostic_of self) (placeholders template))
  ∧ (∀ b ds,
       _resolve_fstring_call self template = Propagated b ds →
       ∃ before e after,
         placeholders template = before ++ e :: after
         ∧ eval e (context self) = Some (Exits b)
         ∧ ds = omap (diagnostic_of self) before).
Proof.
  split.
  - intros out ds. apply sub_pieces_call_Returned.
  - intros b ds. apply sub_pieces_call_Propagated.
Qed.

Lemma diagnostics_exact_witness :
  [{| diag_expression := "b"; diag_error := NameError "b" |};
   {| diag_expression := "a +"; diag_error := SyntaxError |}]
  = omap (diagnostic_of (new_context {[ "a" := VInt 1 ]}))
         (placeholders "{a}{b} {} {a +}{a+1}")
  ∧ ∃ before e after,
      placeholders "{a}{b}{exit(a)}{c}" = before ++ e :: after
      ∧ eval e (context (new_context {[ "a" := VInt 1 ]}))
        = Some (Exits (SystemExit (Some (VInt 1))))
      ∧ [{| diag_expression := "b"; diag_error := NameError "b" |}]
        = omap (diagnostic_of (new_context {[ "a" := VInt 1 ]})) before.
Proof.
  split.
  - apply (proj1 (diagnostics_exact (new_context {[ "a" := VInt 1 ]})
                    "{a}{b} {} {a +}{a+1}") "1{b} {} {a +}2").
    vm_compute. reflexivity.
  - apply (proj2 (diagnostics_exact (new_context {[ "a" := VInt 1 ]})
                    "{a}{b}{exit(a)}{c}")).
    vm_compute. reflexivity.
Defined.

(** X7. When the expression of every placeholder raises an instance of
    [Exception], the call returns the template exactly as it was, and one
    line is printed for each placeholder, in order. *)
Theorem all_failures_return_template (self : ChainContextBase.t) template :
  (∀ e, e ∈ placeholders template →
        ∃ x, eval e (context self) = Some (Raises x)) →
  ∃ ds, _resolve_fstring_call self template = Returned template ds
        ∧ diag_expression <$> ds = placeholders template.
Proof.
  intros H. destruct (sub_pieces_call_all_raise self _ H) as (ds & Hds & Hes).
  exists ds. split; [|done].
  unfold _resolve_fstring_call, Re.sub_call. by rewrite Hds, unscan_finditer.
Qed.

Lemma all_failures_return_template_witness :
  ∃ ds, _resolve_fstring_call (new_context {[ "n" := VInt 1; "s" := VStr "a" ]})
          "{missing} {n +} {}{n+s}" = Returned "{missing} {n +} {}{n+s}" ds
        ∧ diag_expression <$> ds = placeholders "{missing} {n +} {}{n+s}".
Proof.
  apply (all_failures_return_template
           (new_context {[ "n" := VInt 1; "s" := VStr "a" ]})
           "{missing} {n +} {}{n+s}").
  intros e He. vm_compute in He.
  repeat (apply elem_of_cons in He as [->|He]; [vm_compute; eauto|]).
  by apply elem_of_nil in He.
Defined.

(** X8. Templates concatenate: when the first one does not end inside an
    open brace, the placeholders of the whole are those of the two parts,
    and its resolution is the two resolutions side by side, outputs and
    printed lines alike. *)
Theorem resolve_fstring_concat (self : ChainContextBase.t) t1 t2 out1 d1 out2 d2 :
  unclosed t1 = false →
  _resolve_fstring self t1 = Some (out1, d1) →
  _resolve_fstring self t2 = Some (out2, d2) →
  placeholders (t1 +:+ t2) = placeholders t1 ++ placeholders t2
  ∧ _resolve_fstring self (t1 +:+ t2) = Some (out1 +:+ out2, d1 ++ d2).
Proof.
  intros Ht1 H1 H2. split.
  - unfold placeholders, groups. by rewrite finditer_app, omap_app.
  - rewrite resolve_fstring_app by done. rewrite H1, H2.
    unfold bind, ret. simpl. by rewrite app_nil_r.
Qed.

Lemma resolve_fstring_concat_witness :
  placeholders ("{a} {b} }" +:+ "{a}{") = placeholders "{a} {b} }" ++ placeholders "{a}{"
  ∧ _resolve_fstring (new_context {[ "a" := VInt 1 ]}) ("{a} {b} }" +:+ "{a}{")
    = Some ("1 {b} }" +:+ "1{",
            [{| diag_expression := "b"; diag_error := NameError "b" |}] ++ []).
Proof.
  apply (resolve_fstring_concat (new_context {[ "a" := VInt 1 ]})).
  - vm_compute. reflexivity.
  - vm_compute. reflexivity.
  - vm_compute. reflexivity.
Defined.

(** ** What a resolution reads of the Context *)

Lemma load_name_ext l1 l2 name :
  l1 !! name = l2 !! name → load_name l1 name = load_name l2 name.
Proof. intros H. unfold load_name. by rewrite H. Qed.

Lemma eval_expr_ext l1 l2 : ∀ e,
  (∀ name, name ∈ names e → l1 !! name = l2 !! name) →
  eval_expr l1 e = eval_expr l2 e.
Proof.
  fix IH 1. intros [n|z| |op e|op a b|f arg] H; simpl in *.
  - apply load_name_ext, H, list_elem_of_here.
  - done.
  - done.
  - by rewrite (IH e H).
  - rewrite (IH a), (IH b); [done| |];
      intros name Hn; apply H, elem_of_app; eauto.
  - destruct (names f) as [|n0 ns] eqn:En; [done|]. rewrite <- En in H.
    rewrite (IH f); [|intros name Hn; apply H, elem_of_app; eauto].
    destruct arg as [a|]; [|done]. simpl in H.
    rewrite (IH a); [done|intros name Hn; apply H, elem_of_app; eauto].
Qed.

Lemma eval_ext source l1 l2 :
  (∀ name, name ∈ referenced_names source → l1 !! name = l2 !! name) →
  eval source l1 = eval source l2.
Proof.
  unfold eval, referenced_names.
  destruct (compile source) as [[x|e]|]; [done| |done].
  apply eval_expr_ext.
Qed.

Lemma sub_pieces_call_ext_groups repl repl' ps :
  (∀ e, e ∈ groups ps → repl e = repl' e) →
  Re.sub_pieces_call repl ps = Re.sub_pieces_call repl' ps.
Proof.
  induction ps as [|[c|e] ps IH]; intros H; simpl; [done|by rewrite IH|].
  rewrite (H e) by apply list_elem_of_here.
  rewrite IH; [done|]. intros e' He'. apply H. by apply list_elem_of_further.
Qed.

(** X9. Inside the fragment of expressions made of names, decimal
    integers, [+], [-], parentheses and calls with no or one argument, a
    resolution reads the
    Context only at the names its placeholders refer to: when the call on
    one object stays inside the fragment, it ends the same way, with the
    same result and the same lines, on every object whose Context agrees
    with the first on those names. *)
Theorem resolution_reads_referenced_names
    (self other : ChainContextBase.t) template :
  _resolve_fstring_call self template ≠ Outside →
  (∀ e name, e ∈ placeholders template → name ∈ referenced_names e →
             context self !! name = context other !! name) →
  _resolve_fstring_call other template = _resolve_fstring_call self template.
Proof.
  intros _ H. unfold _resolve_fstring_call, Re.sub_call.
  apply sub_pieces_call_ext_groups. intros e He. unfold replacer_call.
  rewrite (eval_ext e (context other) (context self)); [done|].
  intros name Hn. symmetry. by eapply H.
Qed.

Lemma resolution_reads_referenced_names_witness :
  _resolve_fstring_call
    (new_context {[ "x" := VInt 1; "y" := VStr "other"; "z" := VNone ]}) "{x+1} {n}"
  = _resolve_fstring_call (new_context {[ "x" := VInt 1; "y" := VInt 2 ]}) "{x+1} {n}".
Proof.
  apply resolution_reads_referenced_names.
  - vm_compute. discriminate.
  - intros e name He Hn. vm_compute in He.
    apply elem_of_cons in He as [->|He].
    { vm_compute in Hn. apply list_elem_of_singleton in Hn as ->.
      vm_compute. reflexivity. }
    apply list_elem_of_singleton in He as ->.
    vm_compute in Hn. apply list_elem_of_singleton in Hn as ->.
    vm_compute. reflexivity.
Defined.

(** X10. Inside the same fragment, a call of [update] that binds none of
    the names a template refers to leaves the resolution of that template
    as it was. *)
Theorem update_then_resolve (self : ChainContextBase.t) kwargs self' template :
  update self kwargs = Updated self' →
  _resolve_fstring_call self template ≠ Outside →
  (∀ e name, e ∈ placeholders template → name ∈ referenced_names e →
             kwargs !! name = None) →
  _resolve_fstring_call self' template = _resolve_fstring_call self template.
Proof.
  intros (_ & Hctx & _)%update_inv Hin H.
  apply resolution_reads_referenced_names; [done|].
  intros e name He Hn. rewrite Hctx. symmetry.
  apply lookup_union_r. by eapply H.
Qed.

Lemma update_then_resolve_witness :
  _resolve_fstring_call (new_context ({[ "x" := VStr "two" ]} ∪ {[ "x" := VInt 1 ]}))
    "{y} and {len(z)}"
  = _resolve_fstring_call (new_context {[ "x" := VInt 1 ]}) "{y} and {len(z)}".
Proof.
  apply (update_then_resolve (new_context {[ "x" := VInt 1 ]}) {[ "x" := VStr "two" ]}).
  - vm_compute. reflexivity.
  - vm_compute. discriminate.
  - intros e name He Hn. vm_compute in He.
    apply elem_of_cons in He as [->|He].
    { vm_compute in Hn. apply list_elem_of_singleton in Hn as ->.
      vm_compute. reflexivity. }
    apply list_elem_of_singleton in He as ->. vm_compute in Hn.
    apply elem_of_cons in Hn as [->|Hn]; [vm_compute; reflexivity|].
    apply list_elem_of_singleton in Hn as ->. vm_compute. reflexivity.
Defined.

(** ** The walker on nested values *)

(** Induction on a value and on the values it holds. *)
Lemma Value_deep_ind (P : Value → Prop) :
  P VNone → (∀ b, P (VBool b)) → (∀ z, P (VInt z)) → (∀ s, P (VStr s)) →
  (∀ l, Forall P l → P (VList l)) →
  (∀ l, Forall P l → P (VTuple l)) →
  (∀ items, Forall (λ kv, P kv.1 ∧ P kv.2) items → P (VDict items)) →
  (∀ name, P (VBuiltin name)) →
  ∀ v, P v.
Proof.
  intros HNone HBool HInt HStr HList HTuple HDict HBuiltin.
  fix IH 1. intros [|b|z|s|l|l|items|name].
  - exact HNone.
  - apply HBool.
  - apply HInt.
  - apply HStr.
  - apply HList. induction l as [|v l IHl]; constructor; [apply IH|done].
  - apply HTuple. induction l as [|v l IHl]; constructor; [apply IH|done].
  - apply HDict. induction items as [|[k v] items IHl]; constructor;
      [split; apply IH|done].
  - apply HBuiltin.
Qed.

Lemma resolve_placeholders_str self s :
  _resolve_placeholders self (VStr s) =
  let* r := _resolve_fstring self s in ret (VStr r).
Proof. reflexivity. Qed.

Lemma resolve_placeholders_list self l :
  _resolve_placeholders self (VList l) =
  let* l' := run_list (_resolve_placeholders self) l in ret (VList l').
Proof. reflexivity. Qed.

Lemma resolve_placeholders_dict self items :
  _resolve_placeholders self (VDict items) =
  let* items' :=
    run_list (λ kv, let* v := _resolve_placeholders self kv.2 in ret (kv.1, v))
             items in
  ret (VDict items').
Proof. reflexivity. Qed.





(** X12. The walker mirrors the structure of its argument at every depth:
    strings come back as strings, a dict keeps its keys (they are not
    resolved) and their order, a list keeps its length, and every other
    object, with all it holds, is the same. *)
Theorem resolve_placeholders_same_shape (self : ChainContextBase.t) v :
  ∀ v' out, _resolve_placeholders self v = Some (v', out) → same_shape v v'.
Proof.
  induction v as [|b|z|s|l IH|l IH|items IH|name] using Value_deep_ind;
    intros v' out Hv;
    try (injection Hv as <- <-; by apply shape_other).
  - rewrite resolve_placeholders_str in Hv.
    apply bind_ret_Some in Hv as (r & _ & ->). constructor.
  - rewrite resolve_placeholders_list in Hv.
    apply bind_ret_Some in Hv as (l' & (outs & H & _)%run_list_Some & ->).
    constructor. clear out.
    induction H as [|x y o l l' outs Hx H IHl]; [constructor|].
    apply Forall_cons in IH as [IHx IH]. constructor; [by eapply IHx|by apply IHl].
  - rewrite resolve_placeholders_dict in Hv.
    apply bind_ret_Some in Hv as (items' & (outs & H & _)%run_list_Some & ->).
    constructor. clear out.
    induction H as [|kv kv' o items items' outs Hkv H IHl]; [constructor|].
    apply Forall_cons in IH as [[_ IHv] IH].
    apply bind_ret_Some in Hkv as (w & Hw & ->).
    constructor; [split; [done|by eapply IHv]|by apply IHl].
Qed.

Lemma resolve_placeholders_same_shape_witness :
  same_shape
    (VDict [(VStr "{x}", VList [VStr "{x}"; VTuple [VStr "{x}"]; VNone])])
    (VDict [(VStr "{x}", VList [VStr "1"; VTuple [VStr "{x}"]; VNone])]).
Proof.
  apply (resolve_placeholders_same_shape (new_context {[ "x" := VInt 1 ]}) _ _ []).
  vm_compute. reflexivity.
Defined.

(** ** The reference resolver, applied twice *)

Lemma resolve_ref_other_char self c s :
  c ≠ "$"%char → _resolve_ref self (VStr (String c s)) = VStr (String c s).
Proof. intros Hc. by destruct c as [[] [] [] [] [] [] [] []]. Qed.

Lemma String_neq c s : String c s ≠ s.
Proof.
  intros H. apply (f_equal String.length) in H. simpl in H. lia.
Qed.

(** X13. [_resolve_ref] removes one sigil for each call: applying it a
    second time changes nothing exactly when the value is not a string
    that starts with two sigils. *)
Theorem resolve_ref_twice (self : ChainContextBase.t) v :
  _resolve_ref self (_resolve_ref self v) = _resolve_ref self v
  ↔ ∀ s, v ≠ VStr ("$$" +:+ s).
Proof.
  split.
  - intros H s ->.
    change ("$$" +:+ s) with (String "$" (String "$" s)) in H.
    simpl in H. injection H as H. symmetry in H. by apply String_neq in H.
  - intros H. destruct v as [| | |s| | | |]; try done.
    destruct s as [|c s]; [done|].
    destruct (decide (c = "$"%char)) as [->|Hc];
      [|by rewrite !resolve_ref_other_char].
    change (_resolve_ref self (VStr (String "$" s))) with (VStr s).
    destruct s as [|c' s]; [done|].
    destruct (decide (c' = "$"%char)) as [->|Hc'];
      [by destruct (H s)|by rewrite resolve_ref_other_char].
Qed.

Lemma resolve_ref_twice_witness :
  _resolve_ref (new_context ∅) (_resolve_ref (new_context ∅) (VStr "$a$$b"))
  = _resolve_ref (new_context ∅) (VStr "$a$$b").
Proof.
  apply (proj2 (resolve_ref_twice (new_context ∅) (VStr "$a$$b"))).
  intros s. discriminate.
Defined.

(** ** Placeholders without a name *)

Lemma lex_blank e : is_blank e = true → lex LIdle e = Some [].
Proof.
  unfold is_blank. induction e as [|c e IH]; [done|].
  cbn [chars forallb]. intros [Hc He]%andb_prop.
  assert (start c = Some (LIdle, [])) as Hs by (unfold start; by rewrite Hc).
  cbn [lex flush]. by rewrite Hs, (IH He).
Qed.

Lemma blank_chars e : is_blank e = true → "}"%char ∉ chars e.
Proof.
  unfold is_blank. induction e as [|c e IH]; simpl.
  - intros _. apply not_elem_of_nil.
  - intros [Hc He]%andb_prop. apply not_elem_of_cons. split; [|by apply IH].
    intros <-. discriminate.
Qed.

(** X14. A placeholder whose expression is made of spaces and tabs only
    is no expression: it is left as it is, and a [SyntaxError] is
    reported for it. *)
Theorem blank_placeholder_left (self : ChainContextBase.t) e :
  e ≠ "" → is_blank e = true →
  _resolve_fstring self ("{" +:+ e +:+ "}") =
  Some ("{" +:+ e +:+ "}",
        [{| diag_expression := e; diag_error := SyntaxError |}]).
Proof.
  intros Hne Hb. rewrite resolve_single by eauto using blank_chars.
  apply replacer_raises. unfold eval, compile, tokenize.
  by rewrite lex_blank.
Qed.

Lemma blank_placeholder_left_witness :
  _resolve_fstring (new_context {[ "x" := VInt 1 ]}) ("{" +:+ String TAB "  " +:+ "}") =
  Some ("{" +:+ String TAB "  " +:+ "}",
        [{| diag_expression := String TAB "  "; diag_error := SyntaxError |}]).
Proof.
  apply (blank_placeholder_left (new_context {[ "x" := VInt 1 ]})).
  - discriminate.
  - reflexivity.
Defined.

(** ** Placeholders that hold a number *)

Section Decimal.

Lemma digit_char c :
  is_digit c = true →
  pretty_N_char (Z.to_N (digit_value c)) = c
  ∧ (0 ≤ digit_value c < 10)%Z
  ∧ (c ≠ "0"%char → 0 < digit_value c)%Z
  ∧ is_name_start c = false ∧ c ≠ "}"%char.
Proof.
  intros H. destruct c as [[] [] [] [] [] [] [] []]; try discriminate H;
    (split; [reflexivity|]; split; [by vm_compute|]; split; [|done]);
    first [intros _; by vm_compute | by intros []].
Qed.

Lemma start_digit c :
  is_digit c = true → start c = Some (LInt (String c ""), []).
Proof.
  intros H. destruct (digit_char c H) as (_ & _ & _ & Hn & _). unfold start.
  repeat match goal with
  | |- context [Ascii.eqb c ?x] =>
      destruct (Ascii.eqb_spec c x) as [->|_]; [by vm_compute in H|]
  end.
  simpl. by rewrite Hn, H.
Qed.

Lemma lex_digits rest : ∀ digits,
  forallb is_digit (chars rest) = true →
  lex (LInt digits) rest = flush (LInt (digits +:+ rest)).
Proof.
  induction rest as [|c rest IH]; intros digits Hall.
  - by rewrite app_empty_r.
  - cbn [chars forallb] in Hall. apply andb_prop in Hall as [Hc Hall].
    cbn [lex]. rewrite Hc, IH by done. by rewrite app_assoc_str.
Qed.

Lemma foldl_step_pos cs : ∀ acc,
  forallb is_digit cs = true → (0 < acc)%Z → (0 < foldl decimal_step acc cs)%Z.
Proof.
  induction cs as [|c cs IH]; intros acc Hall Hacc; [done|].
  simpl in *. apply andb_prop in Hall as [Hc Hall]. apply IH; [done|].
  destruct (digit_char c Hc) as (_ & Hd & _). unfold decimal_step. lia.
Qed.

Lemma pretty_go_digits s : ∀ acc tail,
  forallb is_digit (chars s) = true → (0 < acc)%Z →
  pretty_N_go (Z.to_N (foldl decimal_step acc (chars s))) tail
  = pretty_N_go (Z.to_N acc) (s +:+ tail).
Proof.
  induction s as [|c s IH]; intros acc tail Hall Hacc; [done|].
  cbn [chars forallb foldl] in *. apply andb_prop in Hall as [Hc Hall].
  destruct (digit_char c Hc) as (Hch & Hd & _).
  rewrite IH by (try done; unfold decimal_step; lia).
  assert (Z.to_N (decimal_step acc c) = 10 * Z.to_N acc + Z.to_N (digit_value c))%N
    as -> by (unfold decimal_step; lia).
  rewrite pretty_N_go_step by lia.
  rewrite <- (N.div_unique _ 10 (Z.to_N acc) (Z.to_N (digit_value c)))
    by (try done; lia).
  rewrite <- (N.mod_unique _ 10 (Z.to_N acc) (Z.to_N (digit_value c)))
    by (try done; lia).
  by rewrite Hch.
Qed.

Lemma pretty_Z_pos z : (0 < z)%Z → pretty z = pretty_N_go (Z.to_N z) "".
Proof. destruct z as [|p|p]; [lia| |lia]. intros _. reflexivity. Qed.

(** Printing the value of a literal gives the literal back. *)
Lemma pretty_decimal_value c rest :
  is_digit c = true → c ≠ "0"%char → forallb is_digit (chars rest) = true →
  (0 < decimal_value (String c rest))%Z
  ∧ pretty (decimal_value (String c rest)) = String c rest.
Proof.
  intros Hc Hc0 Hrest. destruct (digit_char c Hc) as (Hch & Hd & Hpos & _).
  specialize (Hpos Hc0).
  assert (decimal_value (String c rest) = foldl decimal_step (digit_value c) (chars rest))
    as -> by reflexivity.
  pose proof (foldl_step_pos _ _ Hrest Hpos) as Hv. split; [done|].
  rewrite pretty_Z_pos, pretty_go_digits by done.
  rewrite pretty_N_go_step by lia.
  rewrite N.div_small, N.mod_small by lia.
  by rewrite pretty_N_go_0, Hch, app_empty_r.
Qed.

End Decimal.

Lemma is_decimal_literal_cases d :
  is_decimal_literal d = true →
  d = "0" ∨ ∃ c rest, d = String c rest ∧ is_digit c = true ∧ c ≠ "0"%char
                      ∧ forallb is_digit (chars rest) = true
                      ∧ String.length d ≤ int_max_str_digits.
Proof.
  destruct d as [|c rest]; [done|].
  destruct (decide (c = "0"%char)) as [->|Hc].
  - destruct rest; [by left|done].
  - intros H. right. exists c, rest.
    assert (negb (Ascii.eqb c "0") && forallb is_digit (chars (String c rest))
            && bool_decide (String.length (String c rest) ≤ int_max_str_digits)
            = true) as H'.
    { revert H. unfold is_decimal_literal.
      by destruct c as [[] [] [] [] [] [] [] []]. }
    apply andb_prop in H' as [[_ [H1 H2]%andb_prop]%andb_prop H3].
    by apply bool_decide_eq_true in H3.
Qed.

(** X15. A placeholder that holds a decimal integer literal is replaced by
    that literal: [{0}] becomes [0] and [{12}] becomes [12], whatever the
    Context binds; nothing is printed. *)
Theorem number_placeholder (self : ChainContextBase.t) d :
  is_decimal_literal d = true →
  _resolve_fstring self ("{" +:+ d +:+ "}") = Some (d, []).
Proof.
  intros [->|(c & rest & -> & Hc & Hc0 & Hrest & Hlen)]%is_decimal_literal_cases;
    [reflexivity|].
  destruct (pretty_decimal_value c rest Hc Hc0 Hrest) as [Hpos Hpretty].
  assert ("}"%char ∉ chars (String c rest)) as Hno.
  { apply no_brace_check. simpl. apply andb_true_intro. split.
    - destruct (digit_char c Hc) as (_ & _ & _ & _ & Hb).
      by destruct (Ascii.eqb_spec c "}").
    - clear -Hrest. induction rest as [|c' rest IH]; [done|].
      simpl in *. apply andb_prop in Hrest as [Hc' Hrest].
      destruct (digit_char c' Hc') as (_ & _ & _ & _ & Hb).
      rewrite IH by done. by destruct (Ascii.eqb_spec c' "}"). }
  rewrite resolve_single by done.
  assert (int_token (String c rest) = Some (TInt (decimal_value (String c rest))))
    as Htok.
  { assert (int_token (String c rest) =
            if bool_decide (String.length (String c rest) ≤ int_max_str_digits)
            then Some (TInt (decimal_value (String c rest))) else None) as ->.
    { unfold int_token. by destruct c as [[] [] [] [] [] [] [] []]. }
    by rewrite bool_decide_eq_true_2. }
  assert (eval (String c rest) (context self)
          = Some (Returns (VInt (decimal_value (String c rest))))) as He.
  { unfold eval, compile, tokenize. cbn [lex flush].
    rewrite start_digit, lex_digits by done.
    cbn [flush]. rewrite app_String, app_empty_l, Htok. reflexivity. }
  apply (replacer_returns _ _ _ _ He). unfold str, repr, repr_int.
  rewrite Z.abs_eq by lia. rewrite Hpretty.
  by rewrite bool_decide_eq_true_2.
Qed.

Lemma number_placeholder_witness :
  _resolve_fstring (new_context {[ "x" := VInt 1 ]}) ("{" +:+ "1024" +:+ "}")
  = Some ("1024", []).
Proof.
  apply (number_placeholder (new_context {[ "x" := VInt 1 ]}) "1024").
  vm_compute. reflexivity.
Defined.
